(** * Signaling relay: connection registry, room directory, signal router

    A shallow embedding of the socket handlers of [src/server.ts]
    (the [join-room], [signal] and [disconnect] callbacks registered inside
    [io.on('connection', ...)]) together with the three in-memory stores they
    share, followed by the properties of the relay. *)

From Stdlib Require Import Ascii.
From stdpp Require Import gmap strings list fin_maps.

Open Scope string_scope.
Open Scope list_scope.
Open Scope stdpp_scope.

(** ** Data model *)

(** The discriminated kind of a signal payload
    ([type: 'offer' | 'answer' | 'candidate']). *)
Inductive signal_type := Offer | Answer | Candidate.

(** The payload of a [signal] event.  The session description and the ICE
    candidate are opaque to the server; they are carried as strings.  The
    [candidate] field is optional and may be [null]. *)
Record payload := {
  type : signal_type;
  sdp : option string;
  candidate : option (option string);
  senderUserId : string;
  targetUserId : string;
  roomId : string
}.

(** What the server emits: the event name with its argument. *)
Inductive message :=
  | ExistingUsers (users : list string)   (* 'existing-users', { users } *)
  | UserJoined (userId : string)          (* 'user-joined', { userId } *)
  | UserLeft (userId : string)            (* 'user-left', { userId } *)
  | SignalMsg (p : payload).              (* 'signal', payload *)

(** How an emission is addressed, one constructor per form used in the
    handlers. *)
Inductive target :=
  | SocketEmit (socketId : string)                (* socket.emit(...) *)
  | SocketTo (room : string) (socketId : string)  (* socket.to(room).emit(...) *)
  | IoTo (room : string).                         (* io.to(room).emit(...) *)

Definition emission : Type := target * message.

(** A JavaScript [Set<string>] keeps its elements in insertion order, and
    [Array.from] exposes that order: a list without repetition. *)
Module StrSet.
Definition has (x : string) (s : list string) : bool := bool_decide (x ∈ s).
Definition add (x : string) (s : list string) : list string :=
  if has x s then s else s ++ [x].
Definition delete (x : string) (s : list string) : list string :=
  filter (λ y, y ≠ x) s.
Definition size (s : list string) : nat := length s.
End StrSet.

(** The [rooms] store is a [Map<string, Set<string>>]; [forEach] visits the
    entries in insertion order, so it is an association list.  [set] on a key
    already present keeps the position of the entry. *)
Module RoomMap.
Fixpoint get (r : string) (m : list (string * list string)) : option (list string) :=
  match m with
  | [] => None
  | (k, v) :: rest => if decide (k = r) then Some v else get r rest
  end.
Definition has (r : string) (m : list (string * list string)) : bool :=
  match get r m with Some _ => true | None => false end.
Fixpoint set (r : string) (v : list string) (m : list (string * list string))
  : list (string * list string) :=
  match m with
  | [] => [(r, v)]
  | (k, w) :: rest => if decide (k = r) then (k, v) :: rest else (k, w) :: set r v rest
  end.
End RoomMap.

(** The state shared by all handlers: the three module-level stores of
    [server.ts], and the socket.io adapter that [socket.join] writes to
    (for every connected socket, the transport rooms it is in; a socket is
    in the room named by its own id from the moment it connects). *)
Record state := {
  rooms : list (string * list string);
  userIdToSocketIdMap : gmap string string;
  socketIdToUserIdMap : gmap string string;
  sids : gmap string (gset string)
}.

Definition init : state :=
  {| rooms := []; userIdToSocketIdMap := ∅; socketIdToUserIdMap := ∅; sids := ∅ |}.

(** JavaScript truthiness of a string, as tested by [if (targetSocketId)] and
    [if (disconnectedUserId)]: only the empty string is falsy ([undefined] is
    the [None] of the lookup). *)
Definition truthy (s : string) : bool := bool_decide (s ≠ EmptyString).

(** ** The handlers *)

(** [socket.on('join-room', (roomId, userId) => ...)] on socket [socketId]. *)
Definition on_join_room (st : state) (socketId roomId userId : string)
  : state * list emission :=
  (* socket.join(roomId) *)
  let sids' := alter (λ rs, {[roomId]} ∪ rs) socketId (sids st) in
  (* userIdToSocketIdMap.set(userId, socket.id) *)
  let fwd := <[userId := socketId]> (userIdToSocketIdMap st) in
  (* socketIdToUserIdMap.set(socket.id, userId) *)
  let rev := <[socketId := userId]> (socketIdToUserIdMap st) in
  (* if (!rooms.has(roomId)) rooms.set(roomId, new Set()) *)
  let rooms1 :=
    if RoomMap.has roomId (rooms st) then rooms st
    else RoomMap.set roomId [] (rooms st) in
  (* const roomUsersSet = rooms.get(roomId)!; roomUsersSet.add(userId) *)
  let roomUsersSet := StrSet.add userId (default [] (RoomMap.get roomId rooms1)) in
  let rooms2 := RoomMap.set roomId roomUsersSet rooms1 in
  (* const usersInThisRoom = Array.from(roomUsersSet) *)
  let usersInThisRoom := roomUsersSet in
  (* usersInThisRoom.filter(id => id !== userId) *)
  let otherUserIdsInRoom := filter (λ id, id ≠ userId) usersInThisRoom in
  ({| rooms := rooms2; userIdToSocketIdMap := fwd;
      socketIdToUserIdMap := rev; sids := sids' |},
   [ (SocketEmit socketId, ExistingUsers otherUserIdsInRoom);
     (SocketTo roomId socketId, UserJoined userId) ]).

(** [socket.on('signal', payload => ...)] on socket [socketId]. *)
Definition on_signal (st : state) (socketId : string) (p : payload)
  : state * list emission :=
  match userIdToSocketIdMap st !! targetUserId p with
  | Some targetSocketId =>
      if truthy targetSocketId
      then (st, [ (IoTo targetSocketId, SignalMsg p) ])
      else (st, [])
  | None => (st, [])
  end.

(** The [rooms.forEach] of the disconnect handler.  Deleting the entry being
    visited does not disturb the iteration, so the loop is a pass over the
    entries in order: an entry that held the user loses it, a broadcast is
    emitted for it, and it is dropped if that leaves it empty.  The keys of
    a [Map] are distinct, so [rooms.delete(roomId)] removes the visited entry
    and no other. *)
Fixpoint leave_rooms (socketId disconnectedUserId : string)
    (m : list (string * list string))
  : list (string * list string) * list emission :=
  match m with
  | [] => ([], [])
  | (roomId, usersSet) :: rest =>
      let '(rest', out) := leave_rooms socketId disconnectedUserId rest in
      if StrSet.has disconnectedUserId usersSet then
        let usersSet' := StrSet.delete disconnectedUserId usersSet in
        let e := (SocketTo roomId socketId, UserLeft disconnectedUserId) in
        if Nat.eqb (StrSet.size usersSet') 0
        then (rest', e :: out)
        else ((roomId, usersSet') :: rest', e :: out)
      else ((roomId, usersSet) :: rest', out)
  end.

(** [socket.on('disconnect', () => ...)] on socket [socketId]. *)
Definition on_disconnect (st : state) (socketId : string) : state * list emission :=
  match socketIdToUserIdMap st !! socketId with
  | Some disconnectedUserId =>
      if truthy disconnectedUserId then
        let '(rooms', out) := leave_rooms socketId disconnectedUserId (rooms st) in
        ({| rooms := rooms';
            userIdToSocketIdMap := delete disconnectedUserId (userIdToSocketIdMap st);
            socketIdToUserIdMap := delete socketId (socketIdToUserIdMap st);
            sids := sids st |}, out)
      else (st, [])
  | None => (st, [])
  end.

(** ** The transport around the handlers *)

Inductive event :=
  | Connect (socketId : string)
  | JoinRoom (socketId roomId userId : string)
  | Signal (socketId : string) (p : payload)
  | Disconnect (socketId : string).

Definition connected (st : state) (socketId : string) : bool :=
  match sids st !! socketId with Some _ => true | None => false end.

Definition with_sids (st : state) (s : gmap string (gset string)) : state :=
  {| rooms := rooms st; userIdToSocketIdMap := userIdToSocketIdMap st;
     socketIdToUserIdMap := socketIdToUserIdMap st; sids := s |}.

(** One event handled to completion.  The handlers exist only on a socket
    passed to the [connection] callback, so an event on a socket that is not
    connected does nothing.  The engine gives every connection a non-empty id
    that no connected socket has and puts the socket in the room of that
    name; on disconnect the socket has left all its rooms when the
    [disconnect] callback runs. *)
Definition step (st : state) (ev : event) : state * list emission :=
  match ev with
  | Connect socketId =>
      if connected st socketId || negb (truthy socketId) then (st, [])
      else (with_sids st (<[socketId := {[socketId]}]> (sids st)), [])
  | JoinRoom socketId roomId userId =>
      if connected st socketId then on_join_room st socketId roomId userId
      else (st, [])
  | Signal socketId p =>
      if connected st socketId then on_signal st socketId p else (st, [])
  | Disconnect socketId =>
      if connected st socketId
      then on_disconnect (with_sids st (delete socketId (sids st))) socketId
      else (st, [])
  end.

(** A sequence of events from a state: the final state and everything
    emitted, in order. *)
Fixpoint run (st : state) (evs : list event) : state * list emission :=
  match evs with
  | [] => (st, [])
  | ev :: rest =>
      let '(st1, out1) := step st ev in
      let '(st2, out2) := run st1 rest in
      (st2, out1 ++ out2)
  end.

Definition reach (evs : list event) : state := (run init evs).1.

(** The connected sockets that are in a transport room. *)
Definition room_sockets (s : gmap string (gset string)) (room : string) : gset string :=
  dom (filter (λ kv, room ∈ kv.2) s).

(** The sockets socket.io delivers an emission to, given the adapter.
    [socket.emit] goes to the socket itself.  [io.to(room)] goes to every
    socket in the room.  [socket.to(room)] is a broadcast to the room that
    excepts the room named [socket.id]: every socket in that room is
    skipped, which is the emitting socket while it is connected and any
    socket that joined a room of that name. *)
Definition recipients (s : gmap string (gset string)) (t : target) : gset string :=
  match t with
  | SocketEmit socketId => {[socketId]}
  | SocketTo room socketId => room_sockets s room ∖ room_sockets s socketId
  | IoTo room => room_sockets s room
  end.

(** ** Predicates used by the statements *)

(** No room of the directory has an empty member set. *)
Definition no_empty_rooms (st : state) : Prop :=
  ∀ r us, (r, us) ∈ rooms st → us ≠ [].

(** The two registry maps agree: [u] is bound to [h] exactly when [h] is
    recorded as [u]. *)
Definition registry_agree (st : state) : Prop :=
  ∀ u h, userIdToSocketIdMap st !! u = Some h ↔ socketIdToUserIdMap st !! h = Some u.

(** Every member of every room is bound, in the forward map, to a connected
    socket. *)
Definition members_live (st : state) : Prop :=
  ∀ r us u, (r, us) ∈ rooms st → u ∈ us →
    ∃ h, userIdToSocketIdMap st !! u = Some h ∧ connected st h = true.

(** The user is a member of no room. *)
Definition in_no_room (st : state) (u : string) : Prop :=
  ∀ r us, (r, us) ∈ rooms st → u ∉ us.

(** A [join-room] under a user id that no other connection is bound as. *)
Definition claims_free_identity (st : state) (ev : event) : bool :=
  match ev with
  | JoinRoom h _ u =>
      bool_decide (userIdToSocketIdMap st !! u = None ∨ userIdToSocketIdMap st !! u = Some h)
  | _ => true
  end.

(** A [join-room] on a connection that is recorded under no other user id. *)
Definition keeps_identity (st : state) (ev : event) : bool :=
  match ev with
  | JoinRoom h _ u =>
      bool_decide (socketIdToUserIdMap st !! h = None ∨ socketIdToUserIdMap st !! h = Some u)
  | _ => true
  end.

(** Both: no identity is shared by two connections or changed by one. *)
Definition one_identity (st : state) (ev : event) : bool :=
  claims_free_identity st ev && keeps_identity st ev.

(** A [join-room] with a non-empty user id. *)
Definition named (ev : event) : bool :=
  match ev with JoinRoom _ _ u => truthy u | _ => true end.

Definition keeps_named_identity (st : state) (ev : event) : bool :=
  keeps_identity st ev && named ev.

Definition one_named_identity (st : state) (ev : event) : bool :=
  one_identity st ev && named ev.

(** Every event of the sequence passes the guard in the state it is handled
    in. *)
Fixpoint guarded (g : state → event → bool) (st : state) (evs : list event) : bool :=
  match evs with
  | [] => true
  | ev :: rest => g st ev && guarded g (step st ev).1 rest
  end.

(** Connected sockets, and the sockets the forward map points to, have
    non-empty ids; a connected socket is in the transport room named by its
    id. *)
Definition named_sockets (st : state) : Prop :=
  (∀ h, connected st h = true → h ≠ EmptyString)
  ∧ (∀ u h, userIdToSocketIdMap st !! u = Some h → h ≠ EmptyString)
  ∧ (∀ h rs, sids st !! h = Some rs → h ∈ rs).

(** A recorded connection is connected and has a non-empty user id, and
    every member of a room is bound to a connection recorded under it. *)
Definition members_recorded (st : state) : Prop :=
  (∀ h u, socketIdToUserIdMap st !! h = Some u → connected st h = true ∧ u ≠ EmptyString)
  ∧ (∀ r us u, (r, us) ∈ rooms st → u ∈ us →
       ∃ h, userIdToSocketIdMap st !! u = Some h ∧ socketIdToUserIdMap st !! h = Some u).

(** With identities neither shared nor changed: the maps agree, a recorded
    connection is connected and has a non-empty user id, and every member of
    a room is bound to a connection that is in the transport room of that
    name. *)
Definition tidy (st : state) : Prop :=
  registry_agree st
  ∧ (∀ h u, socketIdToUserIdMap st !! h = Some u → connected st h = true ∧ u ≠ EmptyString)
  ∧ (∀ r us u, (r, us) ∈ rooms st → u ∈ us →
       ∃ h rs, userIdToSocketIdMap st !! u = Some h ∧ sids st !! h = Some rs ∧ r ∈ rs).

(** The keys of the directory are those of a [Map]: no key twice. *)
Definition unique_rooms (st : state) : Prop := NoDup (rooms st).*1.

(** ** Event sequences and payloads used as concrete inputs *)

Definition offer_to_bob : payload :=
  {| type := Offer; sdp := Some "v=0"; candidate := None;
     senderUserId := "alice"; targetUserId := "bob"; roomId := "r1" |}.

Definition two_joined : list event :=
  [Connect "A"; Connect "B"; JoinRoom "A" "r1" "alice"; JoinRoom "B" "r1" "bob"].

Definition offer_to_carol : payload :=
  {| type := Offer; sdp := Some "v=0"; candidate := None;
     senderUserId := "alice"; targetUserId := "carol"; roomId := "r1" |}.

Definition shared_identity : list event :=
  [Connect "H1"; Connect "H2"; JoinRoom "H1" "r1" "alice"; JoinRoom "H2" "r1" "alice"].

Definition rebound : list event :=
  [Connect "H1"; JoinRoom "H1" "r1" "alice"; JoinRoom "H1" "r1" "bob"].

Definition rebound_then_gone : list event :=
  [Connect "H1"; JoinRoom "H1" "r1" "alice"; JoinRoom "H1" "r1" "bob"; Disconnect "H1"].

Definition join_and_leave : list event :=
  [Connect "A"; Connect "B"; JoinRoom "A" "r1" "alice"; JoinRoom "B" "r1" "bob";
   JoinRoom "A" "r2" "alice"; Disconnect "A"].

Definition empty_user_id : list event :=
  [Connect "H1"; JoinRoom "H1" "r1" EmptyString].

(** ** The origin check given to the socket.io server *)

(** [String.prototype.split(',')]: the pieces between the commas, in order;
    a string without comma is its own single piece, and two adjacent commas
    (or a comma at either end) give an empty piece. *)
Fixpoint split_comma (s : string) : list string :=
  match s with
  | EmptyString => [EmptyString]
  | String c rest =>
      if Ascii.eqb c ","%char then EmptyString :: split_comma rest
      else match split_comma rest with
           | piece :: pieces => String c piece :: pieces
           | [] => [String c EmptyString]
           end
  end.

(** [Array.prototype.join(',')], the inverse used to state the round trip. *)
Fixpoint join_comma (l : list string) : string :=
  match l with
  | [] => EmptyString
  | [piece] => piece
  | piece :: rest => String.append piece (String ","%char (join_comma rest))
  end.

Fixpoint has_comma (s : string) : bool :=
  match s with
  | EmptyString => false
  | String c rest => Ascii.eqb c ","%char || has_comma rest
  end.

(** [const allowedOrigins = process.env.FRONTEND_URL
      ? process.env.FRONTEND_URL.split(',') : ['http://localhost:3000']];
    the environment variable is absent ([None]) or a string. *)
Definition allowedOrigins (FRONTEND_URL : option string) : list string :=
  match FRONTEND_URL with
  | Some url => if truthy url then split_comma url else ["http://localhost:3000"]
  | None => ["http://localhost:3000"]
  end.

(** What the [origin] function of [corsOptions] passes to its callback:
    [callback(null, true)] or [callback(new Error(message))]. *)
Inductive cors_verdict :=
  | Allow
  | Refuse (message : string).

(** [corsOptions.origin]: [origin] is [undefined] ([None]) or a string. *)
Definition corsOptions_origin (allowed : list string) (origin : option string)
  : cors_verdict :=
  match origin with
  | None => Allow
  | Some o =>
      if negb (truthy o) || bool_decide (o ∈ allowed) then Allow
      else Refuse "Not allowed by CORS"
  end.

(** ** Further predicates *)

Definition is_signal (ev : event) : bool :=
  match ev with Signal _ _ => true | _ => false end.

(** A reverse-map entry with a non-empty user id belongs to a connected
    socket. *)
Definition reverse_live (st : state) : Prop :=
  ∀ h u, socketIdToUserIdMap st !! h = Some u →
    connected st h = true ∨ u = EmptyString.

(** Every member of every room has an entry in the forward map. *)
Definition members_bound (st : state) : Prop :=
  ∀ r us u, (r, us) ∈ rooms st → u ∈ us → is_Some (userIdToSocketIdMap st !! u).

(** No member list names a user twice. *)
Definition distinct_members (st : state) : Prop :=
  ∀ r us, (r, us) ∈ rooms st → NoDup us.

(** The ids of the rooms that hold the user, in directory order. *)
Definition rooms_of (u : string) (m : list (string * list string)) : list string :=
  (filter (λ kv, u ∈ kv.2) m).*1.

(** The event an emission answers: existing-users and user-joined answer a
    join-room on the socket they name, user-left a disconnect, and a relayed
    signal a signal event with that very payload. *)
Definition caused_by (ev : event) (e : emission) : Prop :=
  match e.2 with
  | ExistingUsers _ => ∃ h r u, ev = JoinRoom h r u ∧ e.1 = SocketEmit h
  | UserJoined u => ∃ h r, ev = JoinRoom h r u ∧ e.1 = SocketTo r h
  | UserLeft _ => ∃ h r, ev = Disconnect h ∧ e.1 = SocketTo r h
  | SignalMsg p => ∃ s h, ev = Signal s p ∧ e.1 = IoTo h
  end.

(** The room ids named by the join-room events of a sequence, and the socket
    ids of its connections. *)
Definition room_ids (evs : list event) : list string :=
  omap (λ ev, match ev with JoinRoom _ r _ => Some r | _ => None end) evs.

Definition socket_ids (evs : list event) : list string :=
  omap (λ ev, match ev with Connect h => Some h | _ => None end) evs.

(** No join-room of the sequence names a room after the id of a connection
    of the sequence. *)
Definition plain_rooms (evs : list event) : bool :=
  bool_decide (Forall (λ r, r ∉ socket_ids evs) (room_ids evs)).

Definition room_named_after_socket : list event :=
  [Connect "A"; Connect "B"; Connect "C";
   JoinRoom "B" "r1" "bob"; JoinRoom "C" "B" "carol"].

Definition member_on_other_connection : list event :=
  [Connect "K1"; Connect "K2"; Connect "K3";
   JoinRoom "K1" "r1" "alice"; JoinRoom "K2" "r2" "alice";
   JoinRoom "K1" "r3" "bob"; Disconnect "K1"].

(** ** Lemmas on the containers *)

Section RoomMapFacts.
Implicit Types (r : string) (v us : list string) (m : list (string * list string)).

Lemma get_Some_elem r m us : RoomMap.get r m = Some us → (r, us) ∈ m.
Proof.
  induction m as [|[k w] m IH]; simpl; [done|].
  destruct (decide (k = r)) as [->|Hne].
  - intros [= ->]. left.
  - intros H. right. auto.
Qed.

Lemma elem_set r v m kv : kv ∈ RoomMap.set r v m → kv ∈ m ∨ kv = (r, v).
Proof.
  induction m as [|[k w] m IH]; simpl.
  - intros ->%list_elem_of_singleton. by right.
  - destruct (decide (k = r)) as [->|Hne]; intros [->|Hin]%elem_of_cons.
    + by right.
    + left. by right.
    + left. left.
    + destruct (IH Hin) as [?|?]; [left; by right | by right].
Qed.

Lemma get_set_eq r v m : RoomMap.get r (RoomMap.set r v m) = Some v.
Proof.
  induction m as [|[k w] m IH]; simpl.
  - by rewrite decide_True.
  - destruct (decide (k = r)) as [->|Hne]; simpl.
    + by rewrite decide_True.
    + by rewrite decide_False.
Qed.

Lemma set_set r v w m : RoomMap.set r w (RoomMap.set r v m) = RoomMap.set r w m.
Proof.
  induction m as [|[k x] m IH]; simpl.
  - by rewrite decide_True.
  - destruct (decide (k = r)) as [->|Hne]; simpl.
    + by rewrite decide_True.
    + rewrite decide_False; [|done]. by rewrite IH.
Qed.

(** The two-step update of the join handler (create the set if absent,
    then add to the set held by the map) as one [set]. *)
Lemma join_rooms_eq r u m :
  let rooms1 := if RoomMap.has r m then m else RoomMap.set r [] m in
  RoomMap.get r rooms1 = Some (default [] (RoomMap.get r m)) ∧
  RoomMap.set r (StrSet.add u (default [] (RoomMap.get r rooms1))) rooms1
  = RoomMap.set r (StrSet.add u (default [] (RoomMap.get r m))) m.
Proof.
  simpl. unfold RoomMap.has.
  destruct (RoomMap.get r m) as [us|] eqn:Hg; simpl.
  - by rewrite Hg.
  - by rewrite get_set_eq, set_set.
Qed.
End RoomMapFacts.

Section StrSetFacts.
Implicit Types (x y : string) (s : list string).

Lemma has_true x s : StrSet.has x s = true ↔ x ∈ s.
Proof. unfold StrSet.has. by rewrite bool_decide_eq_true. Qed.

Lemma has_false x s : StrSet.has x s = false ↔ x ∉ s.
Proof. unfold StrSet.has. by rewrite bool_decide_eq_false. Qed.

Lemma elem_add x y s : y ∈ StrSet.add x s ↔ y = x ∨ y ∈ s.
Proof.
  unfold StrSet.add. destruct (StrSet.has x s) eqn:H.
  - apply has_true in H. split; [by right|]. by intros [->|?].
  - rewrite elem_of_app, list_elem_of_singleton. tauto.
Qed.

Lemma add_ne_nil x s : StrSet.add x s ≠ [].
Proof.
  intros H. assert (Hx : x ∈ StrSet.add x s) by (apply elem_add; by left).
  rewrite H in Hx. by apply not_elem_of_nil in Hx.
Qed.

Lemma add_add x s : StrSet.add x (StrSet.add x s) = StrSet.add x s.
Proof.
  unfold StrSet.add at 1.
  replace (StrSet.has x (StrSet.add x s)) with true; [done|].
  symmetry. apply has_true, elem_add. by left.
Qed.

Lemma elem_delete x y s : y ∈ StrSet.delete x s ↔ y ≠ x ∧ y ∈ s.
Proof. unfold StrSet.delete. by rewrite list_elem_of_filter. Qed.

Lemma filter_add x s :
  filter (λ y, y ≠ x) (StrSet.add x s) = filter (λ y, y ≠ x) s.
Proof.
  unfold StrSet.add. destruct (StrSet.has x s); [done|].
  rewrite filter_app. simpl. rewrite filter_cons_False by naive_solver.
  rewrite filter_nil. apply app_nil_r.
Qed.
End StrSetFacts.

Section TransportRooms.
Implicit Types (r s h : string) (rs X : gset string).

Lemma joined_twice r rs : {[r]} ∪ ({[r]} ∪ rs) = {[r]} ∪ rs.
Proof. by rewrite (assoc_L (∪)), (idemp_L (∪)). Qed.

Lemma in_joined r rs : r ∈ {[r]} ∪ rs.
Proof. apply elem_of_union. left. by apply elem_of_singleton. Qed.

Lemma in_joined_keep r r' rs : r' ∈ rs → r' ∈ {[r]} ∪ rs.
Proof. intros H. apply elem_of_union. by right. Qed.

End TransportRooms.

(** ** Lemmas on the handlers *)

Arguments on_join_room : simpl never.
Arguments on_signal : simpl never.
Arguments on_disconnect : simpl never.

Section LeaveRooms.
Implicit Types (h u r : string) (m : list (string * list string)).

(** What the pass of the disconnect handler leaves in the directory. *)
Lemma leave_rooms_elem h u m r us' :
  (r, us') ∈ (leave_rooms h u m).1 ↔
  ∃ us, (r, us) ∈ m ∧
    (((u ∉ us) ∧ us' = us) ∨ (u ∈ us ∧ us' = StrSet.delete u us ∧ us' ≠ [])).
Proof.
  induction m as [|[k w] m IH]; simpl.
  - split; [by intros ?%not_elem_of_nil|]. by intros (? & ?%not_elem_of_nil & _).
  - destruct (leave_rooms h u m) as [rest' out] eqn:E. simpl in IH.
    assert (Hrest : (∃ us, (r, us) ∈ m ∧
        (((u ∉ us) ∧ us' = us) ∨ (u ∈ us ∧ us' = StrSet.delete u us ∧ us' ≠ [])))
        → ∃ us, (r, us) ∈ (k, w) :: m ∧
        (((u ∉ us) ∧ us' = us) ∨ (u ∈ us ∧ us' = StrSet.delete u us ∧ us' ≠ []))).
    { intros (us & Hin & H). exists us. split; [by right | done]. }
    destruct (StrSet.has u w) eqn:Hhas.
    + apply has_true in Hhas.
      destruct (Nat.eqb (StrSet.size (StrSet.delete u w)) 0) eqn:Hsz; simpl.
      * apply Nat.eqb_eq, nil_length_inv in Hsz.
        rewrite IH. split; [exact Hrest|].
        intros (us & [[= -> ->]|Hin]%elem_of_cons & H); [|by exists us].
        destruct H as [[Hn _]|(_ & -> & Hne)]; [done | by rewrite Hsz in Hne].
      * apply Nat.eqb_neq in Hsz.
        rewrite elem_of_cons, IH. split.
        -- intros [[= -> ->]|H]; [|by apply Hrest].
           exists w. split; [left|]. right. repeat split; [done|].
           intros Heq. by rewrite Heq in Hsz.
        -- intros (us & [[= -> ->]|Hin]%elem_of_cons & H); [|right; by exists us].
           destruct H as [[Hn _]|(_ & -> & _)]; [done | by left].
    + apply has_false in Hhas. simpl.
      rewrite elem_of_cons, IH. split.
      * intros [[= -> ->]|H]; [|by apply Hrest]. exists w. split; [left|]. by left.
      * intros (us & [[= -> ->]|Hin]%elem_of_cons & H); [|right; by exists us].
        destruct H as [[_ ->]|(Hy & _)]; [by left | done].
Qed.

(** What the pass emits: one broadcast per room that held the user. *)
Lemma leave_rooms_out h u m e :
  e ∈ (leave_rooms h u m).2 ↔
  ∃ r us, (r, us) ∈ m ∧ u ∈ us ∧ e = (SocketTo r h, UserLeft u).
Proof.
  induction m as [|[k w] m IH]; simpl.
  - split; [by intros ?%not_elem_of_nil|]. by intros (? & ? & ?%not_elem_of_nil & _).
  - destruct (leave_rooms h u m) as [rest' out] eqn:E. simpl in IH.
    destruct (StrSet.has u w) eqn:Hhas.
    + apply has_true in Hhas.
      destruct (Nat.eqb (StrSet.size (StrSet.delete u w)) 0); simpl.
      all: rewrite elem_of_cons, IH; split;
        [ intros [->|(r & us & Hin & Hu & ->)];
          [ exists k, w; split; [left | done]
          | exists r, us; split; [by right | done] ]
        | intros (r & us & [[= -> ->]|Hin]%elem_of_cons & Hu & ->); [by left|];
          right; by exists r, us ].
    + apply has_false in Hhas. simpl. rewrite IH. split.
      * intros (r & us & Hin & Hu & ->). exists r, us. split; [by right | done].
      * intros (r & us & [[= -> ->]|Hin]%elem_of_cons & Hu & ->); [done|].
        by exists r, us.
Qed.
End LeaveRooms.

Lemma truthy_true s : truthy s = true ↔ s ≠ EmptyString.
Proof. unfold truthy. by rewrite bool_decide_eq_true. Qed.

Lemma connected_true st h : connected st h = true ↔ is_Some (sids st !! h).
Proof.
  unfold connected. destruct (sids st !! h); split; done || by inversion 1.
Qed.

(** The state after a join, store by store. *)
Lemma on_join_room_state st h r u :
  (on_join_room st h r u).1 =
  {| rooms := RoomMap.set r (StrSet.add u (default [] (RoomMap.get r (rooms st)))) (rooms st);
     userIdToSocketIdMap := <[u := h]> (userIdToSocketIdMap st);
     socketIdToUserIdMap := <[h := u]> (socketIdToUserIdMap st);
     sids := alter (λ rs, {[r]} ∪ rs) h (sids st) |}.
Proof.
  unfold on_join_room. cbn. f_equal.
  destruct (join_rooms_eq r u (rooms st)) as [_ ->]. done.
Qed.

(** The state after the disconnect callback when an identity is found. *)
Lemma on_disconnect_found st h u :
  socketIdToUserIdMap st !! h = Some u → u ≠ EmptyString →
  on_disconnect st h =
  ({| rooms := (leave_rooms h u (rooms st)).1;
      userIdToSocketIdMap := delete u (userIdToSocketIdMap st);
      socketIdToUserIdMap := delete h (socketIdToUserIdMap st);
      sids := sids st |}, (leave_rooms h u (rooms st)).2).
Proof.
  intros Hrev Hu. unfold on_disconnect. rewrite Hrev.
  apply truthy_true in Hu. rewrite Hu.
  by destruct (leave_rooms h u (rooms st)).
Qed.

(** Invariants carry over event sequences. *)
Lemma run_invariant (P : state → Prop) :
  (∀ st ev, P st → P (step st ev).1) →
  ∀ evs st, P st → P (run st evs).1.
Proof.
  intros Hstep. induction evs as [|ev evs IH]; intros st HP; simpl; [done|].
  specialize (Hstep st ev HP). destruct (step st ev) as [st1 out1].
  specialize (IH st1 Hstep). by destruct (run st1 evs).
Qed.

Lemma run_guarded_invariant (g : state → event → bool) (P : state → Prop) :
  (∀ st ev, P st → g st ev = true → P (step st ev).1) →
  ∀ evs st, P st → guarded g st evs = true → P (run st evs).1.
Proof.
  intros Hstep. induction evs as [|ev evs IH]; intros st HP Hg; simpl; [done|].
  simpl in Hg. apply andb_true_iff in Hg as [Hg1 Hg2].
  specialize (Hstep st ev HP Hg1). destruct (step st ev) as [st1 out1].
  specialize (IH st1 Hstep Hg2). by destruct (run st1 evs).
Qed.

Lemma on_signal_state st s p : (on_signal st s p).1 = st.
Proof.
  unfold on_signal. destruct (userIdToSocketIdMap st !! targetUserId p) as [t|]; [|done].
  by destruct (truthy t).
Qed.

Lemma on_disconnect_cases st h :
  (∃ u, socketIdToUserIdMap st !! h = Some u ∧ u ≠ EmptyString ∧
        on_disconnect st h =
        ({| rooms := (leave_rooms h u (rooms st)).1;
            userIdToSocketIdMap := delete u (userIdToSocketIdMap st);
            socketIdToUserIdMap := delete h (socketIdToUserIdMap st);
            sids := sids st |}, (leave_rooms h u (rooms st)).2))
  ∨ ((socketIdToUserIdMap st !! h = None ∨ socketIdToUserIdMap st !! h = Some EmptyString)
     ∧ on_disconnect st h = (st, [])).
Proof.
  destruct (socketIdToUserIdMap st !! h) as [u|] eqn:Hrev.
  - destruct (decide (u = EmptyString)) as [->|Hu].
    + right. split; [by right|]. unfold on_disconnect. by rewrite Hrev.
    + left. exists u. split; [done|]. split; [done|]. by apply on_disconnect_found.
  - right. split; [by left|]. unfold on_disconnect. by rewrite Hrev.
Qed.

Lemma room_sockets_elem (s : gmap string (gset string)) (room h : string) :
  h ∈ room_sockets s room ↔ ∃ rs, s !! h = Some rs ∧ room ∈ rs.
Proof.
  unfold room_sockets. rewrite elem_of_dom. split.
  - intros [rs [H1 H2]%map_lookup_filter_Some]. by exists rs.
  - intros (rs & H1 & H2). exists rs. by apply map_lookup_filter_Some.
Qed.

(** ** The directory never holds an empty room *)

Lemma step_no_empty_rooms st ev : no_empty_rooms st → no_empty_rooms (step st ev).1.
Proof.
  intros Hinv. destruct ev as [h|h r u|h p|h]; unfold step.
  - by destruct (connected st h || negb (truthy h)).
  - destruct (connected st h); [|done].
    rewrite on_join_room_state. intros r' us' Hin. simpl in Hin.
    apply elem_set in Hin as [Hin|[= -> ->]]; [by eapply Hinv | apply add_ne_nil].
  - destruct (connected st h); [|done]. by rewrite on_signal_state.
  - destruct (connected st h); [|done].
    destruct (on_disconnect_cases (with_sids st (delete h (sids st))) h)
      as [(u & _ & _ & ->)|[_ ->]]; [|done].
    intros r' us' Hin. simpl in Hin.
    apply leave_rooms_elem in Hin as (us & Hin & [[_ ->]|(_ & _ & Hne)]); [|done].
    by eapply Hinv.
Qed.

(** C4.  After any sequence of connect, join-room, signal and disconnect
    events, every room present in the room directory has a non-empty member
    set: the disconnect that removes the last member of a room deletes the
    room within the same event. *)
Theorem no_empty_rooms_invariant (evs : list event) : no_empty_rooms (reach evs).
Proof.
  unfold reach. apply run_invariant.
  - apply step_no_empty_rooms.
  - intros r us Hin. by apply not_elem_of_nil in Hin.
Qed.

(** ** Joining twice *)

(** C9.  Handling join-room(r, u) a second time on the same connection right
    after the first leaves the whole state, and so the room directory and the
    member set of [r], as the first join left it. *)
Theorem join_room_idempotent (st : state) (h r u : string) :
  (step (step st (JoinRoom h r u)).1 (JoinRoom h r u)).1 = (step st (JoinRoom h r u)).1
  ∧ rooms (step (step st (JoinRoom h r u)).1 (JoinRoom h r u)).1
    = rooms (step st (JoinRoom h r u)).1.
Proof.
  assert (Hst : (step (step st (JoinRoom h r u)).1 (JoinRoom h r u)).1
                = (step st (JoinRoom h r u)).1); [|by rewrite Hst].
  destruct (connected st h) eqn:Hc.
  2: { assert (E : step st (JoinRoom h r u) = (st, []))
         by (unfold step; by rewrite Hc).
       rewrite E. cbn [fst]. by rewrite E. }
  assert (E : step st (JoinRoom h r u) = on_join_room st h r u)
    by (unfold step; by rewrite Hc).
  rewrite E, on_join_room_state. unfold step.
  assert (connected
    {| rooms := RoomMap.set r (StrSet.add u (default [] (RoomMap.get r (rooms st)))) (rooms st);
       userIdToSocketIdMap := <[u:=h]> (userIdToSocketIdMap st);
       socketIdToUserIdMap := <[h:=u]> (socketIdToUserIdMap st);
       sids := alter (λ rs, {[r]} ∪ rs) h (sids st) |} h = true) as ->.
  { apply connected_true in Hc as [rs Hrs]. apply connected_true. simpl.
    rewrite lookup_alter_eq, Hrs. by eexists. }
  rewrite on_join_room_state. simpl. f_equal.
  - rewrite get_set_eq. simpl. by rewrite add_add, set_set.
  - apply insert_insert_eq.
  - apply insert_insert_eq.
  - apply map_eq. intros k. destruct (decide (h = k)) as [<-|Hk].
    + rewrite !lookup_alter_eq. destruct (sids st !! h); simpl; [|done].
      f_equal. apply joined_twice.
    + by rewrite !lookup_alter_ne.
Qed.

(** ** Rebinding a connection *)

(** C10.  When the forward map binds [v] to [h] and [h] handles join-room with
    another user id [u], the entry of [v] stays as it is, so a lookup of [v]
    (as done by the signal handler) still yields [h]; the bind writes the
    forward entry keyed [u] and the reverse entry keyed [h] and no other
    entry of either map. *)
Theorem rebind_keeps_previous_forward_entry (st : state) (h r u v : string) :
  userIdToSocketIdMap st !! v = Some h → v ≠ u →
  let st' := (on_join_room st h r u).1 in
  userIdToSocketIdMap st' !! v = Some h
  ∧ (∀ k, k ≠ u → userIdToSocketIdMap st' !! k = userIdToSocketIdMap st !! k)
  ∧ (∀ k, k ≠ h → socketIdToUserIdMap st' !! k = socketIdToUserIdMap st !! k)
  ∧ userIdToSocketIdMap st' !! u = Some h
  ∧ socketIdToUserIdMap st' !! h = Some u
  ∧ (∀ s p, targetUserId p = v → h ≠ EmptyString →
       on_signal st' s p = (st', [(IoTo h, SignalMsg p)])).
Proof.
  intros Hv Hne st'. subst st'. rewrite on_join_room_state. simpl.
  assert (Hv' : <[u:=h]> (userIdToSocketIdMap st) !! v = Some h)
    by (by rewrite lookup_insert_ne).
  repeat split.
  - done.
  - intros k Hk. by rewrite lookup_insert_ne.
  - intros k Hk. by rewrite lookup_insert_ne.
  - apply lookup_insert_eq.
  - apply lookup_insert_eq.
  - intros s p Hp Hh. unfold on_signal. simpl. rewrite Hp, Hv'.
    apply truthy_true in Hh. by rewrite Hh.
Qed.

Lemma rebind_keeps_previous_forward_entry_witness :
  let st := reach [Connect "H1"; JoinRoom "H1" "r1" "alice"] in
  userIdToSocketIdMap (on_join_room st "H1" "r1" "bob").1 !! "alice" = Some "H1".
Proof.
  intros st.
  apply (rebind_keeps_previous_forward_entry st "H1" "r1" "bob" "alice");
    [by vm_compute | done].
Defined.

(** ** Routing a signal *)

Lemma step_named_sockets st ev : named_sockets st → named_sockets (step st ev).1.
Proof.
  intros (Hc & Hf & Ho). destruct ev as [h|h r u|h p|h]; unfold step.
  - destruct (connected st h) eqn:Hh; simpl; [done|].
    destruct (truthy h) eqn:Ht; simpl; [|done].
    apply truthy_true in Ht. split; [|split; [done|]].
    + intros k Hk. apply connected_true in Hk. simpl in Hk.
      destruct (decide (h = k)) as [<-|Hne]; [done|].
      rewrite lookup_insert_ne in Hk by done. by apply Hc, connected_true.
    + intros k rs. cbn [sids with_sids]. destruct (decide (h = k)) as [<-|Hne].
      * rewrite lookup_insert_eq. intros [= <-]. by apply elem_of_singleton.
      * rewrite lookup_insert_ne by done. apply Ho.
  - destruct (connected st h) eqn:Hh; [|done].
    rewrite on_join_room_state. split; [|split].
    + intros k Hk. apply connected_true in Hk. simpl in Hk.
      apply lookup_alter_is_Some in Hk. by apply Hc, connected_true.
    + intros v k. simpl. destruct (decide (u = v)) as [<-|Hne].
      * rewrite lookup_insert_eq. intros [= <-]. by apply Hc.
      * rewrite lookup_insert_ne by done. apply Hf.
    + intros k rs. cbn [sids]. destruct (decide (h = k)) as [<-|Hne].
      * rewrite lookup_alter_eq. destruct (sids st !! h) as [rs0|] eqn:Hrs0; [|done].
        intros [= <-]. by apply in_joined_keep, Ho.
      * rewrite lookup_alter_ne by done. apply Ho.
  - destruct (connected st h); [|done]. by rewrite on_signal_state.
  - destruct (connected st h) eqn:Hh; [|done].
    assert (Hc' : ∀ k, connected (with_sids st (delete h (sids st))) k = true → k ≠ EmptyString).
    { intros k Hk. apply connected_true in Hk. simpl in Hk.
      apply Hc, connected_true. destruct (decide (h = k)) as [<-|Hne].
      - rewrite lookup_delete_eq in Hk. by destruct Hk.
      - by rewrite lookup_delete_ne in Hk. }
    assert (Ho' : ∀ k rs, delete h (sids st) !! k = Some rs → k ∈ rs).
    { intros k rs [_ Hk]%lookup_delete_Some. by eapply Ho. }
    destruct (on_disconnect_cases (with_sids st (delete h (sids st))) h)
      as [(u & _ & _ & ->)|[_ ->]]; [|done].
    split; [done|]. split; [|done]. intros v k. simpl. intros Hv.
    apply lookup_delete_Some in Hv as [_ Hv]. by eapply Hf.
Qed.

Lemma reach_named_sockets evs : named_sockets (reach evs).
Proof.
  unfold reach. apply run_invariant; [apply step_named_sockets|].
  split; [|split].
  - intros h Hh. by vm_compute in Hh.
  - intros u h Hu. by vm_compute in Hu.
  - intros h rs Hh. by vm_compute in Hh.
Qed.

(** C7.  When the target of a signal payload has no binding in the forward
    map, handling the signal emits nothing (no delivery to any connection and
    no notice to the sender) and returns the state (registry and room
    directory) as it was; the handler is total, so it cannot fail. *)
Theorem signal_unresolved_dropped (st : state) (s : string) (p : payload) :
  userIdToSocketIdMap st !! targetUserId p = None →
  on_signal st s p = (st, []) ∧ step st (Signal s p) = (st, []).
Proof.
  intros Hnone.
  assert (E : on_signal st s p = (st, [])) by (unfold on_signal; by rewrite Hnone).
  split; [done|]. unfold step. by destruct (connected st s).
Qed.

Lemma signal_unresolved_dropped_witness :
  step (reach two_joined) (Signal "A" offer_to_carol) = (reach two_joined, []).
Proof.
  refine (proj2 (signal_unresolved_dropped (reach two_joined) "A" offer_to_carol _)).
  by vm_compute.
Defined.

(** ** What a join emits *)

(** The two-joiners scenario, evaluated: the second joiner is told of
    ["alice"], and user-joined {bob} reaches the first joiner only. *)
Example two_joiners_scenario :
  (step (reach [Connect "A"; Connect "B"; JoinRoom "A" "r1" "alice"])
        (JoinRoom "B" "r1" "bob")).2
  = [ (SocketEmit "B", ExistingUsers ["alice"]); (SocketTo "r1" "B", UserJoined "bob") ]
  ∧ elements (recipients (sids (reach two_joined)) (SocketTo "r1" "B")) = ["A"].
Proof. by vm_compute. Qed.

(** ** Agreement of the two registry maps *)

(** Two connections joining under one user id leave the first one recorded
    as that user in the reverse map while the forward map points to the
    second; one connection joining under two user ids leaves the first id
    bound in the forward map to a connection recorded as the second. *)
Lemma registry_disagrees_on_shared_or_changed_identity :
  ¬ registry_agree (reach shared_identity) ∧ ¬ registry_agree (reach rebound).
Proof.
  split; intros H.
  - destruct (H "alice" "H1") as [_ Hback].
    assert (Hf : userIdToSocketIdMap (reach shared_identity) !! "alice" = Some "H1")
      by (apply Hback; by vm_compute).
    by vm_compute in Hf.
  - destruct (H "alice" "H1") as [Hforth _].
    assert (Hr : socketIdToUserIdMap (reach rebound) !! "H1" = Some "alice")
      by (apply Hforth; by vm_compute).
    by vm_compute in Hr.
Qed.

Lemma one_identity_join st h r u :
  one_identity st (JoinRoom h r u) = true →
  (userIdToSocketIdMap st !! u = None ∨ userIdToSocketIdMap st !! u = Some h)
  ∧ (socketIdToUserIdMap st !! h = None ∨ socketIdToUserIdMap st !! h = Some u).
Proof.
  unfold one_identity, claims_free_identity, keeps_identity.
  rewrite andb_true_iff, !bool_decide_eq_true. done.
Qed.

Lemma registry_agree_bind (fwd rev : gmap string string) (u h : string) :
  (∀ u0 h0, fwd !! u0 = Some h0 ↔ rev !! h0 = Some u0) →
  (fwd !! u = None ∨ fwd !! u = Some h) →
  (rev !! h = None ∨ rev !! h = Some u) →
  ∀ u0 h0, <[u:=h]> fwd !! u0 = Some h0 ↔ <[h:=u]> rev !! h0 = Some u0.
Proof.
  intros Hag Hf Hr u0 h0.
  destruct (decide (u = u0)) as [<-|Hu]; destruct (decide (h = h0)) as [<-|Hh].
  - by rewrite !lookup_insert_eq.
  - rewrite lookup_insert_eq, lookup_insert_ne by done. split; [congruence|].
    intros H. apply Hag in H. destruct Hf as [Hf|Hf]; congruence.
  - rewrite lookup_insert_eq, lookup_insert_ne by done. split; [|congruence].
    intros H. apply Hag in H. destruct Hr as [Hr|Hr]; congruence.
  - rewrite !lookup_insert_ne by done. apply Hag.
Qed.

Lemma registry_agree_unbind (fwd rev : gmap string string) (u h : string) :
  (∀ u0 h0, fwd !! u0 = Some h0 ↔ rev !! h0 = Some u0) →
  rev !! h = Some u →
  ∀ u0 h0, delete u fwd !! u0 = Some h0 ↔ delete h rev !! h0 = Some u0.
Proof.
  intros Hag Hr u0 h0. rewrite !lookup_delete_Some. split.
  - intros [Hu H]. apply Hag in H. split; [|done]. intros <-. congruence.
  - intros [Hh H]. apply Hag in H. split; [|done]. intros <-.
    apply Hag in Hr. congruence.
Qed.

Lemma step_registry_agree st ev :
  registry_agree st → one_identity st ev = true → registry_agree (step st ev).1.
Proof.
  intros Hag Hg. destruct ev as [h|h r u|h p|h]; unfold step.
  - by destruct (connected st h || negb (truthy h)).
  - destruct (connected st h); [|done].
    apply one_identity_join in Hg as [Hf Hr].
    rewrite on_join_room_state. unfold registry_agree. cbn [userIdToSocketIdMap socketIdToUserIdMap].
    by apply registry_agree_bind.
  - destruct (connected st h); [|done]. by rewrite on_signal_state.
  - destruct (connected st h); [|done].
    destruct (on_disconnect_cases (with_sids st (delete h (sids st))) h)
      as [(u & Hr & _ & ->)|[_ ->]]; [|done].
    unfold registry_agree. cbn [fst userIdToSocketIdMap socketIdToUserIdMap with_sids] in *.
    by apply registry_agree_unbind.
Qed.

(** C2 (amended).  In every state reached by events in which each join-room
    (r, u) on a connection [h] comes when [u] is unbound or bound to [h] and
    [h] is unrecorded or recorded as [u], the forward and the reverse map
    agree: [u] is bound to [h] exactly when [h] is recorded as [u]. *)
Theorem registry_agree_one_identity (evs : list event) :
  guarded one_identity init evs = true → registry_agree (reach evs).
Proof.
  intros Hg. unfold reach.
  apply (run_guarded_invariant one_identity registry_agree); [|done|done].
  intros st ev. apply step_registry_agree.
Qed.

Lemma registry_agree_one_identity_witness :
  registry_agree (reach two_joined).
Proof. apply (registry_agree_one_identity two_joined). by vm_compute. Defined.

(** ** Members and live connections *)

(** A connection that joined as ["alice"] and then as ["bob"] is cleaned up
    as ["bob"] only: ["alice"] stays a member of the room, bound to a
    connection that is gone. *)
Lemma member_outlives_its_connection :
  ¬ members_live (reach rebound_then_gone).
Proof.
  intros H. destruct (H "r1" ["alice"] "alice") as (h & Hf & Hc).
  - vm_compute. left.
  - left.
  - vm_compute in Hf. injection Hf as <-. by vm_compute in Hc.
Qed.

Lemma named_join h r u : named (JoinRoom h r u) = true → u ≠ EmptyString.
Proof. apply truthy_true. Qed.

Lemma one_named_identity_inv st ev :
  one_named_identity st ev = true →
  one_identity st ev = true ∧ (∀ h r u, ev = JoinRoom h r u → u ≠ EmptyString).
Proof.
  unfold one_named_identity. rewrite andb_true_iff. intros [H1 H2].
  split; [done|]. intros h r u ->. by apply (named_join h r u).
Qed.

Lemma step_members_recorded st ev :
  members_recorded st → keeps_named_identity st ev = true →
  members_recorded (step st ev).1.
Proof.
  intros (Hrev & Hmem) [Hkeep Hname]%andb_true_iff.
  destruct ev as [h|h r u|h p|h]; unfold step.
  - (* connect *)
    destruct (connected st h) eqn:Hc; simpl; [done|].
    destruct (truthy h); simpl; [|done]. split; [|done].
    intros k v Hk. destruct (Hrev k v Hk) as [Hk' Hv]. split; [|done].
    apply connected_true. simpl. rewrite lookup_insert_ne; [by apply connected_true|].
    intros <-. congruence.
  - (* join-room *)
    destruct (connected st h) eqn:Hc; [|done].
    apply (named_join h r u) in Hname. apply bool_decide_eq_true in Hkeep.
    rewrite on_join_room_state. cbn [rooms userIdToSocketIdMap socketIdToUserIdMap sids].
    split.
    + intros k v. rewrite connected_true. cbn [sids socketIdToUserIdMap].
      rewrite lookup_alter_is_Some, <-connected_true.
      destruct (decide (h = k)) as [<-|Hk].
      * rewrite lookup_insert_eq. by intros [= <-].
      * rewrite lookup_insert_ne by done. apply Hrev.
    + assert (Hold : ∀ r' us v, (r', us) ∈ rooms st → v ∈ us →
                ∃ k, <[u:=h]> (userIdToSocketIdMap st) !! v = Some k
                     ∧ <[h:=u]> (socketIdToUserIdMap st) !! k = Some v).
      { intros r' us v Hin Hv. destruct (decide (v = u)) as [->|Hne].
        - exists h. by rewrite !lookup_insert_eq.
        - destruct (Hmem r' us v Hin Hv) as (k & Hf & Hr).
          exists k. rewrite lookup_insert_ne by done. split; [done|].
          rewrite lookup_insert_ne; [done|]. intros <-.
          destruct Hkeep; congruence. }
      cbn [rooms userIdToSocketIdMap socketIdToUserIdMap].
      intros r' us v [Hin|[= -> ->]]%elem_set Hv; [by eapply Hold|].
      apply elem_add in Hv as [->|Hv].
      * exists h. by rewrite !lookup_insert_eq.
      * destruct (RoomMap.get r (rooms st)) as [us0|] eqn:Hget; simpl in Hv.
        -- apply get_Some_elem in Hget. by eapply Hold.
        -- by apply not_elem_of_nil in Hv.
  - (* signal *)
    destruct (connected st h); [|done]. by rewrite on_signal_state.
  - (* disconnect *)
    destruct (connected st h) eqn:Hc; [|done].
    assert (Hrev' : ∀ k v, k ≠ h → socketIdToUserIdMap st !! k = Some v →
              connected (with_sids st (delete h (sids st))) k = true ∧ v ≠ EmptyString).
    { intros k v Hk Hkv. destruct (Hrev k v Hkv) as [Hk' Hv]. split; [|done].
      apply connected_true. cbn [sids with_sids]. rewrite lookup_delete_ne by done.
      by apply connected_true. }
    destruct (on_disconnect_cases (with_sids st (delete h (sids st))) h)
      as [(u & Hr & Hu & ->)|[[Hr|Hr] ->]]; unfold members_recorded;
      cbn [fst with_sids rooms userIdToSocketIdMap socketIdToUserIdMap] in *.
    + split.
      * intros k v [Hk Hkv]%lookup_delete_Some. by apply Hrev'.
      * intros r us' v Hin Hv.
        apply leave_rooms_elem in Hin as (us & Hin & Hcase).
        assert (v ∈ us ∧ v ≠ u) as [Hvin Hvu].
        { destruct Hcase as [[Hn ->]|(_ & -> & _)].
          - split; [done|]. by intros ->.
          - apply elem_delete in Hv. tauto. }
        destruct (Hmem r us v Hin Hvin) as (k & Hf & Hk).
        exists k. rewrite lookup_delete_ne by done. split; [done|].
        rewrite lookup_delete_ne; [done|]. intros <-. congruence.
    + split; [|done]. intros k v Hkv. apply Hrev'; [|done]. intros ->. congruence.
    + by destruct (Hrev h EmptyString Hr).
Qed.

Lemma members_recorded_init : members_recorded init.
Proof.
  split.
  - intros h u H. by vm_compute in H.
  - intros r us u H. by apply not_elem_of_nil in H.
Qed.

Lemma step_tidy st ev :
  tidy st → one_named_identity st ev = true → tidy (step st ev).1.
Proof.
  intros (Hag & Hrev & Hmem) Hg.
  apply one_named_identity_inv in Hg as [Hg Hname].
  split; [by apply step_registry_agree|].
  destruct ev as [h|h r u|h p|h]; unfold step.
  - (* connect *)
    destruct (connected st h) eqn:Hc; simpl; [done|].
    destruct (truthy h); simpl; [|done]. split.
    + intros k v Hk. destruct (Hrev k v Hk) as [Hk' Hv]. split; [|done].
      apply connected_true. simpl. rewrite lookup_insert_ne; [by apply connected_true|].
      intros <-. congruence.
    + intros r us u Hin Hu. destruct (Hmem r us u Hin Hu) as (k & rs & Hf & Hk & Hr).
      exists k, rs. split; [done|]. split; [|done].
      rewrite lookup_insert_ne; [done|]. intros <-.
      assert (connected st h = true) by (apply connected_true; by eexists). congruence.
  - (* join-room *)
    destruct (connected st h) eqn:Hc; [|done].
    specialize (Hname h r u eq_refl).
    rewrite on_join_room_state. cbn [rooms userIdToSocketIdMap socketIdToUserIdMap sids].
    split.
    + intros k v. destruct (decide (h = k)) as [<-|Hk].
      * rewrite lookup_insert_eq. intros [= <-]. split; [|done].
        apply connected_true. simpl. apply lookup_alter_is_Some. by apply connected_true.
      * rewrite lookup_insert_ne by done. intros Hkv.
        destruct (Hrev k v Hkv) as [Hk' Hv]. split; [|done].
        apply connected_true. simpl. apply lookup_alter_is_Some. by apply connected_true.
    + assert (Hkeep : ∀ r' us v, (r', us) ∈ rooms st → v ∈ us → v ≠ u →
                ∃ k rs, <[u:=h]> (userIdToSocketIdMap st) !! v = Some k
                        ∧ alter (λ rs, {[r]} ∪ rs) h (sids st) !! k = Some rs ∧ r' ∈ rs).
      { intros r' us v Hin Hv Hne.
        destruct (Hmem r' us v Hin Hv) as (k & rs & Hf & Hk & Hr).
        rewrite lookup_insert_ne by done.
        destruct (decide (h = k)) as [<-|Hhk].
        - exists h, ({[r]} ∪ rs). rewrite lookup_alter_eq, Hk.
          split; [done|]. split; [done|by apply in_joined_keep].
        - exists k, rs. by rewrite lookup_alter_ne. }
      assert (Hnew : ∀ r', r' = r →
                ∃ k rs, <[u:=h]> (userIdToSocketIdMap st) !! u = Some k
                        ∧ alter (λ rs, {[r]} ∪ rs) h (sids st) !! k = Some rs ∧ r' ∈ rs).
      { intros r' ->. apply connected_true in Hc as [rs Hrs].
        exists h, ({[r]} ∪ rs). rewrite lookup_insert_eq, lookup_alter_eq, Hrs.
        split; [done|]. split; [done|apply in_joined]. }
      intros r' us v Hin Hv.
      destruct (decide (v = u)) as [->|Hne].
      * apply elem_set in Hin as [Hin|[= -> ->]]; [|by apply Hnew].
        (* [u] was a member already: its binding is [h] by the guard *)
        destruct (Hmem r' us u Hin Hv) as (k & rs & Hf & Hk & Hr).
        apply one_identity_join in Hg as [[Hf'|Hf'] _]; [congruence|].
        assert (k = h) as -> by congruence.
        exists h, ({[r]} ∪ rs). rewrite lookup_insert_eq, lookup_alter_eq, Hk.
        split; [done|]. split; [done|by apply in_joined_keep].
      * apply elem_set in Hin as [Hin|[= -> ->]]; [by eapply Hkeep|].
        apply elem_add in Hv as [->|Hv]; [done|].
        destruct (RoomMap.get r (rooms st)) as [us0|] eqn:Hget; simpl in Hv.
        -- apply get_Some_elem in Hget. by eapply Hkeep.
        -- by apply not_elem_of_nil in Hv.
  - (* signal *)
    destruct (connected st h); [|done]. by rewrite on_signal_state.
  - (* disconnect *)
    destruct (connected st h) eqn:Hc; [|done].
    destruct (on_disconnect_cases (with_sids st (delete h (sids st))) h)
      as [(u & Hr & Hu & ->)|[[Hr|Hr] ->]]; cbn [fst with_sids socketIdToUserIdMap] in *.
    + cbn [rooms userIdToSocketIdMap socketIdToUserIdMap sids]. split.
      * intros k v [Hk Hkv]%lookup_delete_Some.
        destruct (Hrev k v Hkv) as [Hk' Hv]. split; [|done].
        apply connected_true. simpl. rewrite lookup_delete_ne by done.
        by apply connected_true.
      * intros r us' v Hin Hv.
        apply leave_rooms_elem in Hin as (us & Hin & Hcase).
        assert (v ∈ us ∧ v ≠ u) as [Hvin Hvu].
        { destruct Hcase as [[Hn ->]|(_ & -> & _)].
          - split; [done|]. by intros ->.
          - apply elem_delete in Hv. tauto. }
        destruct (Hmem r us v Hin Hvin) as (k & rs & Hf & Hk & Hrs).
        exists k, rs. rewrite lookup_delete_ne by done. split; [done|].
        split; [|done]. cbn [sids with_sids]. rewrite lookup_delete_ne; [done|].
        intros <-. apply Hag in Hf. congruence.
    + split.
      * intros k v Hkv. destruct (Hrev k v Hkv) as [Hk' Hv]. split; [|done].
        apply connected_true. simpl. rewrite lookup_delete_ne; [by apply connected_true|].
        intros <-. congruence.
      * intros r us v Hin Hv. cbn [rooms userIdToSocketIdMap sids] in *.
        destruct (Hmem r us v Hin Hv) as (k & rs & Hf & Hk & Hrs).
        exists k, rs. split; [done|]. split; [|done]. cbn [sids with_sids].
        rewrite lookup_delete_ne; [done|]. intros <-. apply Hag in Hf. congruence.
    + by destruct (Hrev h EmptyString Hr).
Qed.

Lemma tidy_init : tidy init.
Proof.
  split; [|split].
  - intros u h. by vm_compute.
  - intros h u H. by vm_compute in H.
  - intros r us u H. by apply not_elem_of_nil in H.
Qed.

(** C3 (amended).  In every state reached by events in which each join-room
    carries a non-empty user id and comes on a connection that is recorded
    under no other user id, every user id present in some room is bound in
    the forward map to a connected socket. *)
Theorem members_live_keeps_named_identity (evs : list event) :
  guarded keeps_named_identity init evs = true → members_live (reach evs).
Proof.
  intros Hg.
  assert (Ht : members_recorded (reach evs)).
  { unfold reach.
    apply (run_guarded_invariant keeps_named_identity members_recorded);
      [|apply members_recorded_init|done].
    intros st ev. apply step_members_recorded. }
  destruct Ht as (Hrev & Hmem). intros r us u Hin Hu.
  destruct (Hmem r us u Hin Hu) as (h & Hf & Hr).
  exists h. split; [done|]. by destruct (Hrev h u Hr).
Qed.

Lemma members_live_keeps_named_identity_witness :
  members_live (reach join_and_leave).
Proof. apply (members_live_keeps_named_identity join_and_leave). by vm_compute. Defined.

(** ** Disconnecting *)

Lemma step_join_eq st h r u :
  connected st h = true → step st (JoinRoom h r u) = on_join_room st h r u.
Proof. intros Hc. unfold step. by rewrite Hc. Qed.

Lemma step_disconnect_eq st h :
  connected st h = true →
  step st (Disconnect h) = on_disconnect (with_sids st (delete h (sids st))) h.
Proof. intros Hc. unfold step. by rewrite Hc. Qed.

Lemma connected_on_join st h r u k :
  connected (on_join_room st h r u).1 k = connected st k.
Proof.
  rewrite on_join_room_state. unfold connected. cbn [sids].
  destruct (decide (h = k)) as [<-|Hne].
  - rewrite lookup_alter_eq. by destruct (sids st !! h).
  - by rewrite lookup_alter_ne.
Qed.

Lemma leave_rooms_gone h u m r us' : (r, us') ∈ (leave_rooms h u m).1 → u ∉ us'.
Proof.
  intros (us & _ & [[Hn ->]|(_ & -> & _)])%leave_rooms_elem; [done|].
  rewrite elem_delete. tauto.
Qed.

Lemma set_keys r v m :
  (RoomMap.set r v m).*1 = if RoomMap.has r m then m.*1 else m.*1 ++ [r].
Proof.
  unfold RoomMap.has. induction m as [|[k w] m IH]; [done|].
  cbn [RoomMap.set RoomMap.get].
  destruct (decide (k = r)) as [->|Hne]; [done|].
  rewrite !fmap_cons, IH. by destruct (RoomMap.get r m).
Qed.

Lemma get_None_keys r m : RoomMap.get r m = None ↔ r ∉ m.*1.
Proof.
  induction m as [|[k w] m IH]; simpl.
  - split; [intros _; apply not_elem_of_nil | done].
  - rewrite not_elem_of_cons. destruct (decide (k = r)) as [->|Hne].
    + split; [done | tauto].
    + rewrite IH. split; [done | tauto].
Qed.

Lemma elem_get r us m : NoDup m.*1 → (r, us) ∈ m → RoomMap.get r m = Some us.
Proof.
  induction m as [|[k w] m IH]; [by intros _ ?%not_elem_of_nil|].
  rewrite fmap_cons. intros [Hk Hm]%NoDup_cons. cbn [RoomMap.get fst].
  intros [[= -> ->]|Hin]%elem_of_cons.
  - by rewrite decide_True.
  - rewrite decide_False; [by apply IH|].
    intros ->. apply Hk, list_elem_of_fmap. by exists (r, us).
Qed.

Lemma leave_rooms_keys h u m k : k ∈ (leave_rooms h u m).1.*1 → k ∈ m.*1.
Proof.
  intros ((k' & us') & -> & Hin)%list_elem_of_fmap. simpl.
  apply leave_rooms_elem in Hin as (us & Hin & _).
  apply list_elem_of_fmap. by exists (k', us).
Qed.

Lemma leave_rooms_NoDup h u m : NoDup m.*1 → NoDup (leave_rooms h u m).1.*1.
Proof.
  induction m as [|[k w] m IH]; simpl; [done|].
  intros [Hk Hm]%NoDup_cons. specialize (IH Hm).
  pose proof (leave_rooms_keys h u m k) as Hsub.
  destruct (leave_rooms h u m) as [rest' out]. simpl in *.
  destruct (StrSet.has u w); [destruct (Nat.eqb _ _)|]; simpl;
    try done; apply NoDup_cons; split; auto.
Qed.

Lemma step_unique_rooms st ev : unique_rooms st → unique_rooms (step st ev).1.
Proof.
  unfold unique_rooms. intros Hinv. destruct ev as [h|h r u|h p|h]; unfold step.
  - by destruct (connected st h || negb (truthy h)).
  - destruct (connected st h); [|done].
    rewrite on_join_room_state. cbn [rooms]. rewrite set_keys.
    unfold RoomMap.has. destruct (RoomMap.get r (rooms st)) eqn:Hget; [done|].
    apply get_None_keys in Hget. apply NoDup_app. split; [done|]. split.
    + intros x Hx ->%list_elem_of_singleton. done.
    + apply NoDup_singleton.
  - destruct (connected st h); [|done]. by rewrite on_signal_state.
  - destruct (connected st h); [|done].
    destruct (on_disconnect_cases (with_sids st (delete h (sids st))) h)
      as [(u & _ & _ & ->)|[_ ->]]; [|done].
    cbn [fst rooms with_sids]. by apply leave_rooms_NoDup.
Qed.

Lemma reach_unique_rooms evs : unique_rooms (reach evs).
Proof.
  unfold reach. apply run_invariant; [apply step_unique_rooms|]. apply NoDup_nil_2.
Qed.

(** What the disconnect of a connection recorded under a non-empty user id
    does: the user is left in no room, both map entries are gone, every room
    that held the user gets a user-left broadcast with the leaving socket
    excepted, and a room that remains had some other member. *)
Lemma disconnect_cleanup st h u :
  connected st h = true → socketIdToUserIdMap st !! h = Some u → u ≠ EmptyString →
  in_no_room (step st (Disconnect h)).1 u
  ∧ userIdToSocketIdMap (step st (Disconnect h)).1 !! u = None
  ∧ socketIdToUserIdMap (step st (Disconnect h)).1 !! h = None
  ∧ (∀ r us, (r, us) ∈ rooms st → u ∈ us →
       (SocketTo r h, UserLeft u) ∈ (step st (Disconnect h)).2)
  ∧ (no_empty_rooms st → ∀ r us', (r, us') ∈ rooms (step st (Disconnect h)).1 →
       ∃ us v, (r, us) ∈ rooms st ∧ v ∈ us ∧ v ≠ u)
  ∧ (unique_rooms st → ∀ r us, (r, us) ∈ rooms st → u ∈ us →
       (∀ v, v ∈ us → v = u) → RoomMap.get r (rooms (step st (Disconnect h)).1) = None).
Proof.
  intros Hc Hr Hu. rewrite step_disconnect_eq by done.
  rewrite (on_disconnect_found _ h u) by done.
  cbn [fst snd rooms userIdToSocketIdMap socketIdToUserIdMap with_sids].
  split; [intros r us' Hin; by eapply leave_rooms_gone|].
  split; [apply lookup_delete_eq|]. split; [apply lookup_delete_eq|].
  split; [intros r us Hin Hm; apply leave_rooms_out; by exists r, us|].
  split.
  - intros Hne r us' Hin.
    apply leave_rooms_elem in Hin as (us & Hin & [[Hn ->]|(_ & -> & Hd)]).
    + specialize (Hne r us Hin). destruct us as [|v us]; [done|].
      exists (v :: us), v. split; [done|]. split; [left|]. intros ->. apply Hn. left.
    + destruct (StrSet.delete u us) as [|v vs] eqn:Hvs; [done|].
      assert (Hv : v ∈ StrSet.delete u us) by (rewrite Hvs; left).
      apply elem_delete in Hv as [Hvu Hv]. by exists us, v.
  - intros Huniq r us Hin Hm Hsole.
    destruct (RoomMap.get r (leave_rooms h u (rooms st)).1) as [us'|] eqn:Hget; [|done].
    apply get_Some_elem, leave_rooms_elem in Hget as (us0 & Hin0 & Hcase).
    assert (us0 = us) as ->.
    { apply (elem_get _ _ _ Huniq) in Hin, Hin0. congruence. }
    destruct Hcase as [[Hn _]|(_ & -> & Hd)]; [done|].
    destruct (StrSet.delete u us) as [|v vs] eqn:Hvs; [done|].
    assert (Hv : v ∈ StrSet.delete u us) by (rewrite Hvs; left).
    apply elem_delete in Hv as [Hvu Hv]. by specialize (Hsole v Hv).
Qed.

(** ** Two connections under one user id *)

(** With ["alice"] joined on H1 and then on H2, the lookup of ["alice"]
    yields H2; the disconnect of H1 then removes that forward entry and the
    membership of ["alice"], with H2 still connected. *)
Lemma first_disconnect_unbinds_second :
  userIdToSocketIdMap (reach shared_identity) !! "alice" = Some "H2"
  ∧ connected (reach (shared_identity ++ [Disconnect "H1"])) "H2" = true
  ∧ userIdToSocketIdMap (reach (shared_identity ++ [Disconnect "H1"])) !! "alice" ≠ Some "H2"
  ∧ RoomMap.get "r1" (rooms (reach shared_identity)) = Some ["alice"]
  ∧ RoomMap.get "r1" (rooms (reach (shared_identity ++ [Disconnect "H1"]))) = None.
Proof. by vm_compute. Qed.

(** C1 (amended).  When [u] joins on connection [h1] and then a second
    connection [h2] joins with the same user id, the lookup of [u] yields
    [h2] (the last bind wins) while [h1] stays recorded as [u].  The
    disconnect of [h1] is not guarded by the forward map: it deletes the
    forward entry of [u], so the lookup of [u] finds nothing although [h2] is
    still connected and still recorded as [u], and it removes [u] from every
    room. *)
Theorem last_bind_wins_then_first_disconnect_unbinds
    (st : state) (h1 h2 r1 r2 u : string) :
  connected st h1 = true → connected st h2 = true → h1 ≠ h2 → u ≠ EmptyString →
  let st1 := (step st (JoinRoom h1 r1 u)).1 in
  let st2 := (step st1 (JoinRoom h2 r2 u)).1 in
  let st3 := (step st2 (Disconnect h1)).1 in
  userIdToSocketIdMap st2 !! u = Some h2
  ∧ socketIdToUserIdMap st2 !! h1 = Some u
  ∧ userIdToSocketIdMap st3 !! u = None
  ∧ socketIdToUserIdMap st3 !! h1 = None
  ∧ socketIdToUserIdMap st3 !! h2 = Some u
  ∧ connected st3 h2 = true
  ∧ in_no_room st3 u.
Proof.
  intros Hc1 Hc2 Hne Hu st1 st2 st3.
  assert (E1 : st1 = (on_join_room st h1 r1 u).1)
    by (subst st1; by rewrite step_join_eq).
  assert (Hc2' : connected st1 h2 = true) by (by rewrite E1, connected_on_join).
  assert (E2 : st2 = (on_join_room st1 h2 r2 u).1)
    by (subst st2; by rewrite step_join_eq).
  assert (Hf2 : userIdToSocketIdMap st2 !! u = Some h2).
  { rewrite E2, on_join_room_state. apply lookup_insert_eq. }
  assert (Hr2 : socketIdToUserIdMap st2 !! h1 = Some u).
  { rewrite E2, on_join_room_state. cbn [socketIdToUserIdMap].
    rewrite lookup_insert_ne by done.
    rewrite E1, on_join_room_state. apply lookup_insert_eq. }
  assert (Hr2' : socketIdToUserIdMap st2 !! h2 = Some u).
  { rewrite E2, on_join_room_state. apply lookup_insert_eq. }
  assert (Hc1'' : connected st2 h1 = true)
    by (by rewrite E2, connected_on_join, E1, connected_on_join).
  assert (Hc2'' : connected st2 h2 = true) by (by rewrite E2, connected_on_join).
  destruct (disconnect_cleanup st2 h1 u Hc1'' Hr2 Hu) as (Hno & Hf3 & Hr3 & _).
  split; [done|]. split; [done|]. split; [done|]. split; [done|].
  subst st3. rewrite step_disconnect_eq by done.
  rewrite (on_disconnect_found _ h1 u) by done.
  rewrite step_disconnect_eq in Hno by done.
  rewrite (on_disconnect_found _ h1 u) in Hno by done.
  split; [|split; [|done]].
  - cbn [fst socketIdToUserIdMap with_sids]. by rewrite lookup_delete_ne.
  - apply connected_true. cbn [fst sids with_sids].
    rewrite lookup_delete_ne by done. by apply connected_true.
Qed.

Lemma last_bind_wins_then_first_disconnect_unbinds_witness :
  let st := reach [Connect "H1"; Connect "H2"] in
  let st1 := (step st (JoinRoom "H1" "r1" "alice")).1 in
  let st2 := (step st1 (JoinRoom "H2" "r1" "alice")).1 in
  let st3 := (step st2 (Disconnect "H1")).1 in
  userIdToSocketIdMap st2 !! "alice" = Some "H2"
  ∧ userIdToSocketIdMap st3 !! "alice" = None.
Proof.
  intros st st1 st2 st3.
  destruct (last_bind_wins_then_first_disconnect_unbinds st "H1" "H2" "r1" "r1" "alice")
    as (H2 & _ & H3 & _); [by vm_compute | by vm_compute | done | done |].
  by split.
Defined.

(** ** A connection that joined under the empty user id *)

(** C5 (at the failing input).  A connection that joined room ["r1"] with the
    empty string as user id and then disconnects: the reverse lookup finds
    the id, the test [if (disconnectedUserId)] takes it for missing, and the
    cleanup is skipped.  Nothing is emitted, the user is still a member of
    ["r1"], the room (of which it is the sole member) is still in the
    directory, and both registry entries are still there although the socket
    is gone. *)
Theorem disconnect_skips_cleanup_of_empty_user_id :
  socketIdToUserIdMap (reach empty_user_id) !! "H1" = Some EmptyString
  ∧ RoomMap.get "r1" (rooms (reach empty_user_id)) = Some [EmptyString]
  ∧ (step (reach empty_user_id) (Disconnect "H1")).2 = []
  ∧ connected (step (reach empty_user_id) (Disconnect "H1")).1 "H1" = false
  ∧ RoomMap.get "r1" (rooms (step (reach empty_user_id) (Disconnect "H1")).1) = Some [EmptyString]
  ∧ userIdToSocketIdMap (step (reach empty_user_id) (Disconnect "H1")).1 !! EmptyString = Some "H1"
  ∧ socketIdToUserIdMap (step (reach empty_user_id) (Disconnect "H1")).1 !! "H1" = Some EmptyString.
Proof. by vm_compute. Qed.

(** The disconnect-cleanup scenario, evaluated: ["alice"] (socket A) is in
    ["r1"] with ["bob"] and alone in ["r2"]; when A disconnects, user-left
    {alice} is broadcast to both rooms, the one for ["r1"] reaches B, and
    ["r2"] is gone from the directory. *)
Example disconnect_cleanup_scenario :
  (step (reach [Connect "A"; Connect "B"; JoinRoom "A" "r1" "alice";
                JoinRoom "B" "r1" "bob"; JoinRoom "A" "r2" "alice"])
        (Disconnect "A")).2
  = [ (SocketTo "r1" "A", UserLeft "alice"); (SocketTo "r2" "A", UserLeft "alice") ]
  ∧ rooms (reach join_and_leave) = [("r1", ["bob"])]
  ∧ elements (recipients (sids (reach join_and_leave)) (SocketTo "r1" "A")) = ["B"]
  ∧ elements (recipients (sids (reach join_and_leave)) (SocketTo "r2" "A")) = [].
Proof. by vm_compute. Qed.

(** ** States reached without sharing or changing identities *)

Lemma reach_tidy evs : guarded one_named_identity init evs = true → tidy (reach evs).
Proof.
  intros Hg. unfold reach.
  apply (run_guarded_invariant one_named_identity tidy); [|apply tidy_init|done].
  intros st ev. apply step_tidy.
Qed.

(** ** The origin check *)

Section SplitComma.
Implicit Types (s o : string) (l : list string).

Lemma split_comma_cons s : ∃ piece pieces, split_comma s = piece :: pieces.
Proof.
  destruct s as [|c rest]; simpl; [by eexists _, _|].
  destruct (Ascii.eqb c ","); [by eexists _, _|].
  destruct (split_comma rest); by eexists _, _.
Qed.

Lemma join_comma_cons piece l :
  l ≠ [] → join_comma (piece :: l) = String.append piece (String "," (join_comma l)).
Proof. by destruct l. Qed.

Lemma join_split s : join_comma (split_comma s) = s.
Proof.
  induction s as [|c rest IH]; [done|]. cbn [split_comma].
  destruct (Ascii.eqb c ",") eqn:Hc.
  - apply Ascii.eqb_eq in Hc as ->.
    destruct (split_comma_cons rest) as (piece & pieces & E).
    rewrite join_comma_cons by (by rewrite E). by rewrite IH.
  - destruct (split_comma_cons rest) as (piece & pieces & E). rewrite E in *.
    rewrite <- IH. by destruct pieces.
Qed.

Lemma split_pieces_no_comma s piece :
  piece ∈ split_comma s → has_comma piece = false.
Proof.
  revert piece. induction s as [|c rest IH]; intros piece; cbn [split_comma].
  - by intros ->%list_elem_of_singleton.
  - destruct (Ascii.eqb c ",") eqn:Hc.
    + intros [->|Hin]%elem_of_cons; [done | by apply IH].
    + destruct (split_comma_cons rest) as (q & qs & E). rewrite E in *.
      intros [->|Hin]%elem_of_cons.
      * simpl. rewrite Hc. apply IH. left.
      * apply IH. by right.
Qed.

Lemma split_no_comma s : has_comma s = false → split_comma s = [s].
Proof.
  induction s as [|c rest IH]; [done|]. simpl.
  intros [Hc Hrest]%orb_false_iff. rewrite Hc. by rewrite (IH Hrest).
Qed.

Lemma split_append piece s :
  has_comma piece = false →
  split_comma (String.append piece (String "," s)) = piece :: split_comma s.
Proof.
  induction piece as [|c rest IH]; simpl; [done|].
  intros [Hc Hrest]%orb_false_iff. rewrite Hc. by rewrite (IH Hrest).
Qed.

Lemma split_join l :
  l ≠ [] → Forall (λ piece, has_comma piece = false) l →
  split_comma (join_comma l) = l.
Proof.
  intros Hne Hall. induction Hall as [|piece rest Hp Hrest IH]; [done|].
  destruct rest as [|q qs]; [by apply split_no_comma|].
  rewrite join_comma_cons by done. rewrite split_append by done.
  by rewrite IH.
Qed.
End SplitComma.

(** X1.  A non-empty FRONTEND_URL is recovered by joining the allowed
    origins with commas, and no allowed origin contains a comma. *)
Theorem allowed_origins_round_trip (url : string) :
  url ≠ EmptyString →
  join_comma (allowedOrigins (Some url)) = url
  ∧ (∀ piece, piece ∈ allowedOrigins (Some url) → has_comma piece = false).
Proof.
  intros Hurl%truthy_true. unfold allowedOrigins. rewrite Hurl.
  split; [apply join_split | apply split_pieces_no_comma].
Qed.

Lemma allowed_origins_round_trip_witness :
  join_comma (allowedOrigins (Some "http://a.test,http://b.test"))
  = "http://a.test,http://b.test".
Proof.
  refine (proj1 (allowed_origins_round_trip "http://a.test,http://b.test" _)). done.
Defined.

(** X2.  When FRONTEND_URL is a non-empty comma-separated list of
    comma-free origins, an origin sent by a client is accepted exactly when
    it is empty or one of the listed origins, compared as written. *)
Theorem listed_origins_allowed_exactly (l : list string) (o : string) :
  l ≠ [] → Forall (λ piece, has_comma piece = false) l →
  join_comma l ≠ EmptyString →
  corsOptions_origin (allowedOrigins (Some (join_comma l))) (Some o) = Allow
  ↔ o = EmptyString ∨ o ∈ l.
Proof.
  intros Hne Hall Hurl%truthy_true. unfold allowedOrigins. rewrite Hurl.
  rewrite split_join by done. unfold corsOptions_origin, truthy.
  destruct (decide (o = EmptyString)) as [->|Ho].
  - rewrite bool_decide_eq_false_2 by (by intros ?). simpl. split; [by left|done].
  - rewrite bool_decide_eq_true_2 by done. simpl.
    destruct (decide (o ∈ l)) as [Hin|Hin].
    + rewrite bool_decide_eq_true_2 by done. split; [by right|done].
    + rewrite bool_decide_eq_false_2 by done. split; [done|]. by intros [?|?].
Qed.

Lemma listed_origins_allowed_exactly_witness :
  corsOptions_origin (allowedOrigins (Some (join_comma ["http://a.test"; "http://b.test"])))
                     (Some "http://b.test") = Allow.
Proof.
  apply (listed_origins_allowed_exactly ["http://a.test"; "http://b.test"] "http://b.test").
  - done.
  - by repeat constructor.
  - done.
  - right. right. left.
Defined.

(** X3.  An origin that contains a comma is refused with the message
    'Not allowed by CORS', whatever FRONTEND_URL is. *)
Theorem origin_with_comma_refused (FRONTEND_URL : option string) (o : string) :
  has_comma o = true →
  corsOptions_origin (allowedOrigins FRONTEND_URL) (Some o) = Refuse "Not allowed by CORS".
Proof.
  intros Ho.
  assert (Hne : truthy o = true) by (apply truthy_true; by intros ->).
  assert (Hout : o ∉ allowedOrigins FRONTEND_URL).
  { intros Hin.
    assert (has_comma o = false); [|congruence].
    unfold allowedOrigins in Hin.
    destruct FRONTEND_URL as [url|]; [destruct (truthy url)|].
    - by eapply split_pieces_no_comma.
    - by apply list_elem_of_singleton in Hin as ->.
    - by apply list_elem_of_singleton in Hin as ->. }
  unfold corsOptions_origin. rewrite Hne. by rewrite bool_decide_eq_false_2.
Qed.

Lemma origin_with_comma_refused_witness :
  corsOptions_origin (allowedOrigins (Some "http://a.test,http://b.test"))
                     (Some "http://a.test,http://b.test")
  = Refuse "Not allowed by CORS".
Proof.
  apply (origin_with_comma_refused (Some "http://a.test,http://b.test")). done.
Defined.

(** X4.  A request without Origin header, or with an empty one, is accepted
    whatever FRONTEND_URL is; with FRONTEND_URL unset or empty the only
    other accepted origin is http://localhost:3000. *)
Theorem origin_check_default (FRONTEND_URL : option string) (o : string) :
  corsOptions_origin (allowedOrigins FRONTEND_URL) None = Allow
  ∧ corsOptions_origin (allowedOrigins FRONTEND_URL) (Some EmptyString) = Allow
  ∧ (FRONTEND_URL = None ∨ FRONTEND_URL = Some EmptyString →
     (corsOptions_origin (allowedOrigins FRONTEND_URL) (Some o) = Allow
      ↔ o = EmptyString ∨ o = "http://localhost:3000")).
Proof.
  split; [done|]. split; [done|].
  intros Henv.
  assert (allowedOrigins FRONTEND_URL = ["http://localhost:3000"]) as ->
    by (by destruct Henv as [-> | ->]).
  unfold corsOptions_origin, truthy.
  destruct (decide (o = EmptyString)) as [->|Ho].
  - rewrite bool_decide_eq_false_2 by (by intros ?). simpl. split; [by left|done].
  - rewrite bool_decide_eq_true_2 by done. simpl.
    rewrite bool_decide_decide.
    destruct (decide (o ∈ ["http://localhost:3000"])) as [Hin|Hin].
    + apply list_elem_of_singleton in Hin. split; [by right|done].
    + split; [done|]. intros [? | ->]; [done|]. exfalso. apply Hin. left.
Qed.

(** ** Event sequences *)

Lemma run_cons_state st ev evs : (run st (ev :: evs)).1 = (run (step st ev).1 evs).1.
Proof.
  cbn [run]. destruct (step st ev) as [st1 out1]. cbn [fst snd].
  by destruct (run st1 evs).
Qed.

Lemma run_cons_out st ev evs :
  (run st (ev :: evs)).2 = (step st ev).2 ++ (run (step st ev).1 evs).2.
Proof.
  cbn [run]. destruct (step st ev) as [st1 out1]. cbn [fst snd].
  by destruct (run st1 evs).
Qed.

Lemma step_signal_state st s p : (step st (Signal s p)).1 = st.
Proof. unfold step. destruct (connected st s); [apply on_signal_state | done]. Qed.

Lemma with_sids_id st : with_sids st (sids st) = st.
Proof. by destruct st. Qed.

Lemma run_without_signals st evs :
  (run st evs).1 = (run st (filter (λ ev, is_signal ev = false) evs)).1.
Proof.
  revert st. induction evs as [|ev evs IH]; intros st; [done|].
  rewrite run_cons_state. destruct (is_signal ev) eqn:Hs.
  - rewrite filter_cons_False by congruence.
    destruct ev; try done. by rewrite step_signal_state.
  - rewrite filter_cons_True by done. by rewrite run_cons_state.
Qed.

(** X5.  Signals are pure routing: the state reached by a sequence of events
    is the state reached by the same sequence with every signal event taken
    out. *)
Theorem signals_leave_state (evs : list event) :
  reach evs = reach (filter (λ ev, is_signal ev = false) evs).
Proof. apply run_without_signals. Qed.

(** ** Reverse entries and connected sockets *)

Lemma step_reverse_live st ev : reverse_live st → reverse_live (step st ev).1.
Proof.
  intros Hinv. destruct ev as [h|h r u|h p|h]; unfold step.
  - destruct (connected st h) eqn:Hc; simpl; [done|].
    destruct (truthy h); simpl; [|done].
    intros k v Hk. destruct (Hinv k v Hk) as [Hk'|Hv]; [left|by right].
    apply connected_true. cbn [sids with_sids].
    rewrite lookup_insert_ne; [by apply connected_true|]. intros <-. congruence.
  - destruct (connected st h) eqn:Hc; [|done].
    intros k v. rewrite connected_on_join, on_join_room_state.
    cbn [socketIdToUserIdMap]. destruct (decide (h = k)) as [<-|Hk].
    + by left.
    + rewrite lookup_insert_ne by done. apply Hinv.
  - destruct (connected st h); [|done]. by rewrite on_signal_state.
  - destruct (connected st h) eqn:Hc; [|done].
    assert (Hother : ∀ k v, k ≠ h → socketIdToUserIdMap st !! k = Some v →
              connected (with_sids st (delete h (sids st))) k = true ∨ v = EmptyString).
    { intros k v Hk Hkv. destruct (Hinv k v Hkv) as [Hk'|Hv]; [left|by right].
      apply connected_true. cbn [sids with_sids]. rewrite lookup_delete_ne by done.
      by apply connected_true. }
    destruct (on_disconnect_cases (with_sids st (delete h (sids st))) h)
      as [(u & Hr & Hu & ->)|[[Hr|Hr] ->]]; unfold reverse_live;
      cbn [fst with_sids socketIdToUserIdMap] in *.
    + intros k v [Hk Hkv]%lookup_delete_Some. by apply Hother.
    + intros k v Hkv. apply Hother; [|done]. intros ->. congruence.
    + intros k v Hkv. destruct (decide (k = h)) as [->|Hk]; [|by apply Hother].
      right. congruence.
Qed.

Lemma reach_reverse_live evs : reverse_live (reach evs).
Proof.
  unfold reach. apply run_invariant; [apply step_reverse_live|].
  intros h u H. by vm_compute in H.
Qed.

(** X6.  After any sequence of events, a reverse-map entry under a non-empty
    user id belongs to a socket that is connected: the disconnect of a
    socket recorded under a non-empty id always removes its entry. *)
Theorem reverse_entries_live (evs : list event) : reverse_live (reach evs).
Proof. apply reach_reverse_live. Qed.

(** X7.  A connection that connects and disconnects without joining a room
    leaves no trace: from any reachable state the state is as before and
    nothing is emitted. *)
Theorem connect_disconnect_round_trip (evs : list event) (h : string) :
  connected (reach evs) h = false → h ≠ EmptyString →
  run (reach evs) [Connect h; Disconnect h] = (reach evs, []).
Proof.
  intros Hc Hh%truthy_true. pose proof (reach_reverse_live evs) as Hlive.
  set (st := reach evs) in *.
  assert (Hnone : sids st !! h = None).
  { destruct (sids st !! h) eqn:E; [|done].
    assert (connected st h = true) by (apply connected_true; by eexists). congruence. }
  assert (E1 : step st (Connect h) = (with_sids st (<[h:={[h]}]> (sids st)), [])).
  { unfold step. by rewrite Hc, Hh. }
  assert (E2 : step (with_sids st (<[h:={[h]}]> (sids st))) (Disconnect h) = (st, [])).
  { rewrite step_disconnect_eq
      by (apply connected_true; cbn [sids with_sids]; rewrite lookup_insert_eq; by eexists).
    cbn [sids with_sids]. rewrite delete_insert_id by done.
    assert (with_sids (with_sids st (<[h:={[h]}]> (sids st))) (sids st) = st) as ->
      by (by destruct st).
    destruct (on_disconnect_cases st h) as [(u & Hr & Hu & _)|[_ ->]]; [|done].
    destruct (Hlive h u Hr); congruence. }
  cbn [run]. rewrite E1, E2. done.
Qed.

Lemma connect_disconnect_round_trip_witness :
  run (reach two_joined) [Connect "C"; Disconnect "C"] = (reach two_joined, []).
Proof.
  apply (connect_disconnect_round_trip two_joined "C"); [by vm_compute | done].
Defined.

(** ** Joining and leaving *)

Lemma on_join_room_out st h r u :
  (on_join_room st h r u).2 =
  [ (SocketEmit h, ExistingUsers (filter (λ id, id ≠ u) (default [] (RoomMap.get r (rooms st)))));
    (SocketTo r h, UserJoined u) ].
Proof.
  unfold on_join_room. cbn [snd].
  destruct (join_rooms_eq r u (rooms st)) as [-> _]. cbn [default].
  by rewrite filter_add.
Qed.

Lemma filter_absent (u : string) (us : list string) :
  u ∉ us → filter (λ id, id ≠ u) us = us.
Proof.
  induction us as [|v us IH]; [done|].
  intros [Hv Hus]%not_elem_of_cons.
  rewrite filter_cons_True by done. by rewrite IH.
Qed.

Lemma leave_rooms_absent h u m :
  (∀ r us, (r, us) ∈ m → u ∉ us) → leave_rooms h u m = (m, []).
Proof.
  induction m as [|[k w] m IH]; [done|]. intros Hno. cbn [leave_rooms].
  rewrite IH by (intros r us Hin; apply (Hno r us); by right).
  assert (Hw : u ∉ w) by (apply (Hno k w); left).
  apply has_false in Hw. by rewrite Hw.
Qed.

Lemma leave_rooms_after_join h u r m :
  (∀ r' us, (r', us) ∈ m → u ∉ us) → (∀ us, (r, us) ∈ m → us ≠ []) →
  leave_rooms h u (RoomMap.set r (StrSet.add u (default [] (RoomMap.get r m))) m)
  = (m, [(SocketTo r h, UserLeft u)]).
Proof.
  induction m as [|[k w] m IH]; intros Hno Hne.
  - cbn [RoomMap.get RoomMap.set default leave_rooms].
    assert (StrSet.add u [] = [u]) as ->.
    { unfold StrSet.add. by rewrite (proj2 (has_false u []) (not_elem_of_nil u)). }
    assert (StrSet.has u [u] = true) as -> by (apply has_true; left).
    assert (StrSet.delete u [u] = []) as ->; [|done].
    unfold StrSet.delete. by rewrite filter_cons_False, filter_nil by (by intros ?).
  - assert (Hw : u ∉ w) by (apply (Hno k w); left).
    assert (Hno' : ∀ r' us, (r', us) ∈ m → u ∉ us)
      by (intros r' us Hin; apply (Hno r' us); by right).
    cbn [RoomMap.set RoomMap.get]. destruct (decide (k = r)) as [->|Hk].
    + cbn [default leave_rooms]. rewrite (leave_rooms_absent h u m Hno').
      assert (Hadd : StrSet.add u w = w ++ [u]).
      { unfold StrSet.add. apply has_false in Hw. by rewrite Hw. }
      unfold id. rewrite Hadd.
      assert (StrSet.has u (w ++ [u]) = true) as ->.
      { apply has_true, elem_of_app. right. left. }
      assert (StrSet.delete u (w ++ [u]) = w) as ->.
      { unfold StrSet.delete. rewrite filter_app, filter_absent by done.
        rewrite filter_cons_False, filter_nil by (by intros ?). apply app_nil_r. }
      assert (Hwne : w ≠ []) by (apply Hne; left).
      destruct w; [done|]. done.
    + cbn [leave_rooms]. rewrite IH; [|done|].
      * apply has_false in Hw. by rewrite Hw.
      * intros us Hin. apply Hne. by right.
Qed.

Lemma reach_no_empty_rooms evs : no_empty_rooms (reach evs).
Proof.
  unfold reach. apply run_invariant; [apply step_no_empty_rooms|].
  intros r us Hin. by apply not_elem_of_nil in Hin.
Qed.

(** X8.  A fresh connection that joins a room under a fresh non-empty user id
    and then disconnects brings the server back to the state it started
    from (directory, both maps and transport rooms), having emitted the
    existing-users reply, the user-joined broadcast and one user-left
    broadcast for that room. *)
Theorem fresh_join_disconnect_round_trip (evs : list event) (h r u : string) :
  connected (reach evs) h = false → h ≠ EmptyString → u ≠ EmptyString →
  socketIdToUserIdMap (reach evs) !! h = None →
  userIdToSocketIdMap (reach evs) !! u = None →
  in_no_room (reach evs) u →
  run (reach evs) [Connect h; JoinRoom h r u; Disconnect h]
  = (reach evs,
     [ (SocketEmit h, ExistingUsers (default [] (RoomMap.get r (rooms (reach evs)))));
       (SocketTo r h, UserJoined u);
       (SocketTo r h, UserLeft u) ]).
Proof.
  intros Hc Hh Hu Hrev Hfwd Hno.
  pose proof (reach_no_empty_rooms evs) as Hne.
  set (st := reach evs) in *.
  assert (Hnone : sids st !! h = None).
  { destruct (sids st !! h) eqn:E; [|done].
    assert (connected st h = true) by (apply connected_true; by eexists). congruence. }
  set (st1 := with_sids st (<[h:={[h]}]> (sids st))).
  assert (E1 : step st (Connect h) = (st1, [])).
  { unfold step. rewrite Hc. apply truthy_true in Hh. by rewrite Hh. }
  assert (Hc1 : connected st1 h = true).
  { apply connected_true. subst st1. cbn [sids with_sids].
    rewrite lookup_insert_eq. by eexists. }
  set (st2 := (on_join_room st1 h r u).1).
  assert (E2 : step st1 (JoinRoom h r u)
               = (st2, [ (SocketEmit h, ExistingUsers (default [] (RoomMap.get r (rooms st))));
                         (SocketTo r h, UserJoined u) ])).
  { rewrite step_join_eq by done. rewrite (surjective_pairing (on_join_room st1 h r u)).
    rewrite on_join_room_out. subst st2 st1. cbn [rooms with_sids].
    rewrite filter_absent; [done|].
    destruct (RoomMap.get r (rooms st)) as [us|] eqn:Hget; cbn [default].
    - apply (Hno r us). by apply get_Some_elem.
    - apply not_elem_of_nil. }
  assert (Hc2 : connected st2 h = true) by (subst st2; by rewrite connected_on_join).
  assert (E3 : step st2 (Disconnect h) = (st, [(SocketTo r h, UserLeft u)])).
  { rewrite step_disconnect_eq by done.
    assert (Hr2 : socketIdToUserIdMap (with_sids st2 (delete h (sids st2))) !! h = Some u).
    { subst st2. rewrite on_join_room_state. cbn [socketIdToUserIdMap with_sids].
      apply lookup_insert_eq. }
    rewrite (on_disconnect_found _ h u Hr2 Hu).
    subst st2. rewrite on_join_room_state.
    cbn [rooms userIdToSocketIdMap socketIdToUserIdMap sids with_sids]. subst st1.
    cbn [rooms userIdToSocketIdMap socketIdToUserIdMap sids with_sids].
    rewrite leave_rooms_after_join; [|done|intros us Hin; by eapply Hne].
    cbn [fst snd]. rewrite !delete_insert_id by done.
    assert (delete h (alter (λ rs, {[r]} ∪ rs) h (<[h:={[h]}]> (sids st))) = sids st) as ->.
    { apply map_eq. intros k. destruct (decide (h = k)) as [<-|Hk].
      - by rewrite lookup_delete_eq.
      - by rewrite lookup_delete_ne, lookup_alter_ne, lookup_insert_ne. }
    by destruct st. }
  cbn [run]. rewrite E1, E2, E3. done.
Qed.

Lemma fresh_join_disconnect_round_trip_witness :
  run (reach two_joined) [Connect "C"; JoinRoom "C" "r1" "carol"; Disconnect "C"]
  = (reach two_joined,
     [ (SocketEmit "C", ExistingUsers ["alice"; "bob"]);
       (SocketTo "r1" "C", UserJoined "carol");
       (SocketTo "r1" "C", UserLeft "carol") ]).
Proof.
  apply (fresh_join_disconnect_round_trip two_joined "C" "r1" "carol");
    try done; try (by vm_compute).
  intros r us Hin Hu. vm_compute in Hin.
  apply list_elem_of_singleton in Hin. injection Hin as -> ->.
  by repeat (apply elem_of_cons in Hu as [Hu|Hu]; [done|]); apply not_elem_of_nil in Hu.
Defined.

(** ** Members are always bound *)

Lemma step_members_bound st ev : members_bound st → members_bound (step st ev).1.
Proof.
  intros Hinv. destruct ev as [h|h r u|h p|h]; unfold step.
  - by destruct (connected st h || negb (truthy h)).
  - destruct (connected st h); [|done].
    rewrite on_join_room_state. unfold members_bound. cbn [rooms userIdToSocketIdMap].
    assert (Hold : ∀ r' us v, (r', us) ∈ rooms st → v ∈ us →
              is_Some (<[u:=h]> (userIdToSocketIdMap st) !! v)).
    { intros r' us v Hin Hv. apply lookup_insert_is_Some'. right. by eapply Hinv. }
    intros r' us v [Hin|[= -> ->]]%elem_set Hv; [by eapply Hold|].
    apply elem_add in Hv as [->|Hv]; [rewrite lookup_insert_eq; by eexists|].
    destruct (RoomMap.get r (rooms st)) as [us0|] eqn:Hget; simpl in Hv.
    + apply get_Some_elem in Hget. by eapply Hold.
    + by apply not_elem_of_nil in Hv.
  - destruct (connected st h); [|done]. by rewrite on_signal_state.
  - destruct (connected st h); [|done].
    destruct (on_disconnect_cases (with_sids st (delete h (sids st))) h)
      as [(u & _ & _ & ->)|[_ ->]]; [|done].
    unfold members_bound. cbn [fst rooms userIdToSocketIdMap with_sids].
    intros r us' v Hin Hv.
    pose proof (leave_rooms_gone _ _ _ _ _ Hin) as Hgone.
    apply leave_rooms_elem in Hin as (us & Hin & Hcase).
    assert (v ∈ us) as Hvin.
    { destruct Hcase as [[_ ->]|(_ & -> & _)]; [done|]. by apply elem_delete in Hv as [_ ?]. }
    rewrite lookup_delete_ne by (intros ->; done). by eapply Hinv.
Qed.

Lemma reach_members_bound evs : members_bound (reach evs).
Proof.
  unfold reach. apply run_invariant; [apply step_members_bound|].
  intros r us u H. by apply not_elem_of_nil in H.
Qed.

(** X9.  After any sequence of events, a signal whose target is a member of
    some room is never dropped: the target has a forward-map entry, and the
    handler emits the payload, unmodified, to the socket recorded there. *)
Theorem signal_to_member_is_forwarded
    (evs : list event) (r : string) (us : list string) (s : string) (p : payload) :
  (r, us) ∈ rooms (reach evs) → targetUserId p ∈ us →
  ∃ h, userIdToSocketIdMap (reach evs) !! targetUserId p = Some h
       ∧ on_signal (reach evs) s p = (reach evs, [(IoTo h, SignalMsg p)]).
Proof.
  intros Hin Hu.
  destruct (reach_members_bound evs r us _ Hin Hu) as [h Hh].
  destruct (reach_named_sockets evs) as (_ & Hf & _).
  exists h. split; [done|]. unfold on_signal. rewrite Hh.
  specialize (Hf _ _ Hh). apply truthy_true in Hf. by rewrite Hf.
Qed.

Lemma signal_to_member_is_forwarded_witness :
  ∃ h, userIdToSocketIdMap (reach two_joined) !! targetUserId offer_to_bob = Some h
       ∧ on_signal (reach two_joined) "A" offer_to_bob
         = (reach two_joined, [(IoTo h, SignalMsg offer_to_bob)]).
Proof.
  apply (signal_to_member_is_forwarded two_joined "r1" ["alice"; "bob"] "A" offer_to_bob).
  - vm_compute. left.
  - right. left.
Defined.

(** ** What a disconnect emits, and what it leaves alone *)

Lemma leave_rooms_out_list h u m :
  (leave_rooms h u m).2 = (λ r, (SocketTo r h, UserLeft u)) <$> rooms_of u m.
Proof.
  unfold rooms_of. induction m as [|[k w] m IH]; [done|]. cbn [leave_rooms].
  destruct (leave_rooms h u m) as [rest' out]. cbn [snd] in IH.
  destruct (StrSet.has u w) eqn:Hw.
  - apply has_true in Hw. rewrite filter_cons_True by done.
    rewrite !fmap_cons. cbn [fst]. rewrite <- IH.
    by destruct (Nat.eqb _ _).
  - apply has_false in Hw. rewrite filter_cons_False by done. done.
Qed.

(** X10.  The disconnect of a connected socket recorded under a non-empty
    user id emits exactly one user-left broadcast, with the leaving socket
    excepted, for each room that held the user, in the order of the
    directory, and nothing else. *)
Theorem disconnect_emits_one_user_left_per_room (st : state) (h u : string) :
  connected st h = true → socketIdToUserIdMap st !! h = Some u → u ≠ EmptyString →
  (step st (Disconnect h)).2
  = (λ r, (SocketTo r h, UserLeft u)) <$> rooms_of u (rooms st).
Proof.
  intros Hc Hr Hu. rewrite step_disconnect_eq by done.
  rewrite (on_disconnect_found _ h u) by done. cbn [snd rooms with_sids].
  apply leave_rooms_out_list.
Qed.

Lemma disconnect_emits_one_user_left_per_room_witness :
  (step (reach [Connect "A"; Connect "B"; JoinRoom "A" "r1" "alice";
                JoinRoom "B" "r1" "bob"; JoinRoom "A" "r2" "alice"])
        (Disconnect "A")).2
  = (λ r, (SocketTo r "A", UserLeft "alice")) <$> ["r1"; "r2"].
Proof.
  apply (disconnect_emits_one_user_left_per_room
           (reach [Connect "A"; Connect "B"; JoinRoom "A" "r1" "alice";
                   JoinRoom "B" "r1" "bob"; JoinRoom "A" "r2" "alice"]) "A" "alice");
    [by vm_compute | by vm_compute | done].
Defined.

(** X11.  The disconnect of a socket recorded under [u] touches no other
    user: every other user is a member of exactly the rooms it was a member
    of, every other forward-map entry and every other reverse-map entry is
    as before, and no other socket leaves the transport. *)
Theorem disconnect_leaves_other_users (st : state) (h u : string) :
  connected st h = true → socketIdToUserIdMap st !! h = Some u → u ≠ EmptyString →
  (∀ r v, v ≠ u →
     (∃ us', (r, us') ∈ rooms (step st (Disconnect h)).1 ∧ v ∈ us')
     ↔ (∃ us, (r, us) ∈ rooms st ∧ v ∈ us))
  ∧ (∀ v, v ≠ u →
       userIdToSocketIdMap (step st (Disconnect h)).1 !! v = userIdToSocketIdMap st !! v)
  ∧ (∀ k, k ≠ h →
       socketIdToUserIdMap (step st (Disconnect h)).1 !! k = socketIdToUserIdMap st !! k
       ∧ connected (step st (Disconnect h)).1 k = connected st k).
Proof.
  intros Hc Hr Hu. rewrite step_disconnect_eq by done.
  rewrite (on_disconnect_found _ h u) by done.
  cbn [fst rooms userIdToSocketIdMap socketIdToUserIdMap with_sids].
  split; [|split].
  - intros r v Hv. split.
    + intros (us' & Hin & Hvin).
      apply leave_rooms_elem in Hin as (us & Hin & [[_ ->]|(_ & -> & _)]).
      * by exists us.
      * exists us. split; [done|]. by apply elem_delete in Hvin as [_ ?].
    + intros (us & Hin & Hvin). destruct (decide (u ∈ us)) as [Hu'|Hu'].
      * exists (StrSet.delete u us).
        assert (Hvd : v ∈ StrSet.delete u us) by (by apply elem_delete).
        split; [|done]. apply leave_rooms_elem. exists us. split; [done|].
        right. split; [done|]. split; [done|]. intros E. rewrite E in Hvd.
        by apply not_elem_of_nil in Hvd.
      * exists us. split; [|done]. apply leave_rooms_elem. exists us.
        split; [done|]. by left.
  - intros v Hv. by rewrite lookup_delete_ne.
  - intros k Hk. split; [by rewrite lookup_delete_ne|].
    unfold connected. cbn [sids with_sids]. by rewrite lookup_delete_ne.
Qed.

Lemma disconnect_leaves_other_users_witness :
  userIdToSocketIdMap (step (reach two_joined) (Disconnect "A")).1 !! "bob"
  = userIdToSocketIdMap (reach two_joined) !! "bob".
Proof.
  destruct (disconnect_leaves_other_users (reach two_joined) "A" "alice")
    as (_ & Hf & _); [by vm_compute | by vm_compute | done |].
  by apply Hf.
Defined.

(** ** What a join leaves alone *)

Lemma get_set_ne r r' v m :
  r ≠ r' → RoomMap.get r' (RoomMap.set r v m) = RoomMap.get r' m.
Proof.
  intros Hne. induction m as [|[k w] m IH]; cbn [RoomMap.set RoomMap.get].
  - by rewrite decide_False.
  - destruct (decide (k = r)) as [->|Hk]; cbn [RoomMap.get].
    + by rewrite !decide_False.
    + by rewrite IH.
Qed.

(** X12.  A join-room(r, u) adds [u] to the member set of [r] and nothing
    else to the directory: the members of [r] are the former ones and [u],
    every other room has the member set it had, a room id is appended to
    the directory only if [r] was absent, and no other socket changes
    transport rooms. *)
Theorem join_room_touches_one_room (st : state) (h r u : string) :
  connected st h = true →
  (∀ v, v ∈ default [] (RoomMap.get r (rooms (step st (JoinRoom h r u)).1))
        ↔ v = u ∨ v ∈ default [] (RoomMap.get r (rooms st)))
  ∧ (∀ r', r' ≠ r →
       RoomMap.get r' (rooms (step st (JoinRoom h r u)).1) = RoomMap.get r' (rooms st))
  ∧ (rooms (step st (JoinRoom h r u)).1).*1
    = (if RoomMap.has r (rooms st) then (rooms st).*1 else (rooms st).*1 ++ [r])
  ∧ (∀ k, k ≠ h → sids (step st (JoinRoom h r u)).1 !! k = sids st !! k).
Proof.
  intros Hc. rewrite step_join_eq, on_join_room_state by done. cbn [rooms sids].
  split; [|split; [|split]].
  - intros v. rewrite get_set_eq. cbn [default]. apply elem_add.
  - intros r' Hr'. by apply get_set_ne.
  - apply set_keys.
  - intros k Hk. by rewrite lookup_alter_ne.
Qed.

Lemma join_room_touches_one_room_witness :
  RoomMap.get "r1" (rooms (step (reach two_joined) (JoinRoom "A" "r2" "alice")).1)
  = RoomMap.get "r1" (rooms (reach two_joined)).
Proof.
  destruct (join_room_touches_one_room (reach two_joined) "A" "r2" "alice")
    as (_ & Hother & _); [by vm_compute|].
  by apply Hother.
Defined.

(** ** The directory as a map of sets *)

Lemma add_NoDup (x : string) (s : list string) : NoDup s → NoDup (StrSet.add x s).
Proof.
  intros Hs. unfold StrSet.add. destruct (StrSet.has x s) eqn:Hx; [done|].
  apply has_false in Hx. apply NoDup_app. split; [done|]. split.
  - by intros y Hy ->%list_elem_of_singleton.
  - apply NoDup_singleton.
Qed.

Lemma step_distinct_members st ev : distinct_members st → distinct_members (step st ev).1.
Proof.
  intros Hinv. destruct ev as [h|h r u|h p|h]; unfold step.
  - by destruct (connected st h || negb (truthy h)).
  - destruct (connected st h); [|done].
    rewrite on_join_room_state. unfold distinct_members. cbn [rooms].
    intros r' us [Hin|[= -> ->]]%elem_set; [by eapply Hinv|].
    apply add_NoDup.
    destruct (RoomMap.get r (rooms st)) as [us0|] eqn:Hget; cbn [default].
    + apply get_Some_elem in Hget. by eapply Hinv.
    + apply NoDup_nil_2.
  - destruct (connected st h); [|done]. by rewrite on_signal_state.
  - destruct (connected st h); [|done].
    destruct (on_disconnect_cases (with_sids st (delete h (sids st))) h)
      as [(u & _ & _ & ->)|[_ ->]]; [|done].
    unfold distinct_members. cbn [fst rooms with_sids].
    intros r us' (us & Hin & [[_ ->]|(_ & -> & _)])%leave_rooms_elem.
    + by eapply Hinv.
    + apply NoDup_filter. by eapply Hinv.
Qed.

(** X13.  After any sequence of events the directory behaves as a map of
    sets: no room id occurs twice, no member set names a user twice, and the
    existing-users list sent on a join names no user twice. *)
Theorem directory_is_a_map_of_sets (evs : list event) :
  unique_rooms (reach evs)
  ∧ distinct_members (reach evs)
  ∧ (∀ s r u users,
       (SocketEmit s, ExistingUsers users) ∈ (step (reach evs) (JoinRoom s r u)).2 →
       NoDup users).
Proof.
  assert (Hd : distinct_members (reach evs)).
  { unfold reach. apply run_invariant; [apply step_distinct_members|].
    intros r us H. by apply not_elem_of_nil in H. }
  split; [apply reach_unique_rooms|]. split; [done|].
  intros s r u users. unfold step. destruct (connected (reach evs) s).
  - rewrite on_join_room_out.
    intros [[= ->]|Hin]%elem_of_cons.
    + apply NoDup_filter.
      destruct (RoomMap.get r (rooms (reach evs))) as [us0|] eqn:Hget; cbn [default].
      * apply get_Some_elem in Hget. by eapply Hd.
      * apply NoDup_nil_2.
    + by apply list_elem_of_singleton in Hin.
  - by intros ?%not_elem_of_nil.
Qed.

(** ** Where memberships, bindings and emissions come from *)

Lemma step_member_origin st ev r us u :
  (r, us) ∈ rooms (step st ev).1 → u ∈ us →
  (∃ us0, (r, us0) ∈ rooms st ∧ u ∈ us0) ∨ (∃ h, ev = JoinRoom h r u).
Proof.
  destruct ev as [h|h r' u'|h p|h]; unfold step.
  - destruct (connected st h || negb (truthy h)); intros; left; by exists us.
  - destruct (connected st h); [|intros; left; by exists us].
    rewrite on_join_room_state. cbn [rooms].
    intros [Hin|[= -> ->]]%elem_set Hu; [left; by exists us|].
    apply elem_add in Hu as [->|Hu]; [right; by exists h|].
    destruct (RoomMap.get r' (rooms st)) as [us0|] eqn:Hget; cbn [default] in Hu.
    + left. exists us0. split; [by apply get_Some_elem | done].
    + by apply not_elem_of_nil in Hu.
  - destruct (connected st h); [rewrite on_signal_state|]; intros; left; by exists us.
  - destruct (connected st h); [|intros; left; by exists us].
    destruct (on_disconnect_cases (with_sids st (delete h (sids st))) h)
      as [(v & _ & _ & ->)|[_ ->]]; [|intros; left; by exists us].
    cbn [fst rooms with_sids].
    intros (us0 & Hin & [[_ ->]|(_ & -> & _)])%leave_rooms_elem Hu; left; exists us0.
    + done.
    + split; [done|]. by apply elem_delete in Hu as [_ ?].
Qed.

Lemma run_member_origin evs st r us u :
  (r, us) ∈ rooms (run st evs).1 → u ∈ us →
  (∃ us0, (r, us0) ∈ rooms st ∧ u ∈ us0) ∨ (∃ h, JoinRoom h r u ∈ evs).
Proof.
  revert st us. induction evs as [|ev evs IH]; intros st us Hin Hu.
  - left. by exists us.
  - rewrite run_cons_state in Hin.
    destruct (IH _ _ Hin Hu) as [(us1 & Hin1 & Hu1)|[h Hh]].
    + destruct (step_member_origin _ _ _ _ _ Hin1 Hu1) as [?|[h ->]]; [by left|].
      right. exists h. left.
    + right. exists h. by right.
Qed.

(** X14.  Memberships come from join-room events only: after any sequence of
    events, a user that is a member of a room was named, with that room, by
    a join-room event of the sequence. *)
Theorem members_come_from_joins (evs : list event) (r : string) (us : list string) (u : string) :
  (r, us) ∈ rooms (reach evs) → u ∈ us → ∃ h, JoinRoom h r u ∈ evs.
Proof.
  intros Hin Hu. destruct (run_member_origin evs init r us u Hin Hu) as [(us0 & H0 & _)|H]; [|done].
  by apply not_elem_of_nil in H0.
Qed.

Lemma members_come_from_joins_witness : ∃ h, JoinRoom h "r1" "bob" ∈ two_joined.
Proof.
  apply (members_come_from_joins two_joined "r1" ["alice"; "bob"] "bob").
  - vm_compute. left.
  - right. left.
Defined.

Lemma step_binding_origin st ev u h :
  (userIdToSocketIdMap (step st ev).1 !! u = Some h →
   userIdToSocketIdMap st !! u = Some h ∨ ∃ r, ev = JoinRoom h r u)
  ∧ (socketIdToUserIdMap (step st ev).1 !! h = Some u →
     socketIdToUserIdMap st !! h = Some u ∨ ∃ r, ev = JoinRoom h r u).
Proof.
  destruct ev as [k|k r v|k p|k]; unfold step.
  - destruct (connected st k || negb (truthy k)); split; by left.
  - destruct (connected st k); [|split; by left].
    rewrite on_join_room_state. cbn [userIdToSocketIdMap socketIdToUserIdMap].
    split.
    + destruct (decide (v = u)) as [->|Hv].
      * rewrite lookup_insert_eq. intros [= ->]. right. by exists r.
      * rewrite lookup_insert_ne by done. by left.
    + destruct (decide (k = h)) as [->|Hk].
      * rewrite lookup_insert_eq. intros [= ->]. right. by exists r.
      * rewrite lookup_insert_ne by done. by left.
  - destruct (connected st k); [rewrite on_signal_state|]; split; by left.
  - destruct (connected st k); [|split; by left].
    destruct (on_disconnect_cases (with_sids st (delete k (sids st))) k)
      as [(v & _ & _ & ->)|[_ ->]]; [|split; by left].
    cbn [fst userIdToSocketIdMap socketIdToUserIdMap with_sids].
    split; intros [_ ?]%lookup_delete_Some; by left.
Qed.

Lemma run_binding_origin evs st u h :
  (userIdToSocketIdMap (run st evs).1 !! u = Some h →
   userIdToSocketIdMap st !! u = Some h ∨ ∃ r, JoinRoom h r u ∈ evs)
  ∧ (socketIdToUserIdMap (run st evs).1 !! h = Some u →
     socketIdToUserIdMap st !! h = Some u ∨ ∃ r, JoinRoom h r u ∈ evs).
Proof.
  revert st. induction evs as [|ev evs IH]; intros st; [split; by left|].
  rewrite run_cons_state. destruct (IH (step st ev).1) as [IHf IHr].
  destruct (step_binding_origin st ev u h) as [Hf Hr].
  split; intros H.
  - destruct (IHf H) as [H1|[r Hin]]; [|right; exists r; by right].
    destruct (Hf H1) as [?|[r ->]]; [by left|]. right. exists r. left.
  - destruct (IHr H) as [H1|[r Hin]]; [|right; exists r; by right].
    destruct (Hr H1) as [?|[r ->]]; [by left|]. right. exists r. left.
Qed.

(** X15.  Registry entries come from join-room events only: after any
    sequence of events, a forward entry u -> h and a reverse entry h -> u
    each stem from a join-room of the sequence made on socket [h] under
    user id [u]. *)
Theorem bindings_come_from_joins (evs : list event) (u h : string) :
  (userIdToSocketIdMap (reach evs) !! u = Some h → ∃ r, JoinRoom h r u ∈ evs)
  ∧ (socketIdToUserIdMap (reach evs) !! h = Some u → ∃ r, JoinRoom h r u ∈ evs).
Proof.
  destruct (run_binding_origin evs init u h) as [Hf Hr].
  split; intros H; [destruct (Hf H) as [H0|?] | destruct (Hr H) as [H0|?]];
    try done; by vm_compute in H0.
Qed.

Lemma step_emission_origin st ev e : e ∈ (step st ev).2 → caused_by ev e.
Proof.
  destruct ev as [h|h r u|h p|h]; unfold step.
  - destruct (connected st h || negb (truthy h)); by intros ?%not_elem_of_nil.
  - destruct (connected st h); [|by intros ?%not_elem_of_nil].
    rewrite on_join_room_out.
    intros [->|[->|?%not_elem_of_nil]%elem_of_cons]%elem_of_cons; [| |done].
    + by exists h, r, u.
    + by exists h, r.
  - destruct (connected st h); [|by intros ?%not_elem_of_nil].
    unfold on_signal. destruct (userIdToSocketIdMap st !! targetUserId p) as [t|];
      [destruct (truthy t)|]; cbn [snd]; try by intros ?%not_elem_of_nil.
    intros ->%list_elem_of_singleton. by exists h, t.
  - destruct (connected st h); [|by intros ?%not_elem_of_nil].
    destruct (on_disconnect_cases (with_sids st (delete h (sids st))) h)
      as [(u & _ & _ & ->)|[_ ->]]; [|by intros ?%not_elem_of_nil].
    cbn [snd]. intros (r & us & _ & _ & ->)%leave_rooms_out. by exists h, r.
Qed.

(** X16.  The server emits nothing of its own accord: every message emitted
    during a sequence of events answers an event of that sequence.  A
    relayed signal carries the payload of a signal event unchanged and is
    addressed with [io.to]; existing-users goes to the socket of a
    join-room; user-joined carries the user id of a join-room and is
    broadcast to its room with its socket excepted; user-left is broadcast
    with the socket of a disconnect excepted. *)
Theorem emissions_answer_events (st : state) (evs : list event) (e : emission) :
  e ∈ (run st evs).2 → ∃ ev, ev ∈ evs ∧ caused_by ev e.
Proof.
  revert st. induction evs as [|ev evs IH]; intros st; [by intros ?%not_elem_of_nil|].
  rewrite run_cons_out. intros [Hin|Hin]%elem_of_app.
  - exists ev. split; [left | by eapply step_emission_origin].
  - destruct (IH _ Hin) as (ev' & Hev & Hc). exists ev'. split; [by right | done].
Qed.

Lemma emissions_answer_events_witness :
  ∃ ev, ev ∈ two_joined ++ [Signal "A" offer_to_bob]
        ∧ caused_by ev (IoTo "B", SignalMsg offer_to_bob).
Proof.
  apply (emissions_answer_events init (two_joined ++ [Signal "A" offer_to_bob])).
  vm_compute. do 4 right. left.
Defined.

(** ** Cleanup and delivery, over reachable states *)

(** X17.  After any sequence of events, the disconnect of a connected socket
    recorded under a non-empty user id removes the socket from the
    transport, removes both registry entries, leaves the user in no room,
    removes every room of which the user was the sole member, and keeps
    every other room that held the user, with the other members in their
    order. *)
Theorem disconnect_cleans_up_named_user (evs : list event) (h u : string) :
  connected (reach evs) h = true →
  socketIdToUserIdMap (reach evs) !! h = Some u → u ≠ EmptyString →
  connected (step (reach evs) (Disconnect h)).1 h = false
  ∧ userIdToSocketIdMap (step (reach evs) (Disconnect h)).1 !! u = None
  ∧ socketIdToUserIdMap (step (reach evs) (Disconnect h)).1 !! h = None
  ∧ in_no_room (step (reach evs) (Disconnect h)).1 u
  ∧ (∀ r us, RoomMap.get r (rooms (reach evs)) = Some us → u ∈ us →
       RoomMap.get r (rooms (step (reach evs) (Disconnect h)).1)
       = if decide (StrSet.delete u us = []) then None else Some (StrSet.delete u us)).
Proof.
  intros Hc Hr Hu.
  destruct (disconnect_cleanup (reach evs) h u Hc Hr Hu) as (Hno & Hf & Hrev & _).
  pose proof (reach_unique_rooms evs) as Huniq.
  pose proof (step_unique_rooms (reach evs) (Disconnect h) Huniq) as Huniq'.
  split; [|split; [done|split; [done|split; [done|]]]].
  - rewrite step_disconnect_eq, (on_disconnect_found _ h u) by done.
    unfold connected. cbn [fst sids with_sids]. by rewrite lookup_delete_eq.
  - intros r us Hget Hin. apply get_Some_elem in Hget.
    rewrite step_disconnect_eq, (on_disconnect_found _ h u) in * by done.
    cbn [fst rooms with_sids] in *.
    destruct (decide (StrSet.delete u us = [])) as [Hd|Hd].
    + destruct (RoomMap.get r (leave_rooms h u (rooms (reach evs))).1) as [us'|] eqn:Hget';
        [|done].
      apply get_Some_elem, leave_rooms_elem in Hget' as (us0 & Hin0 & Hcase).
      assert (us0 = us) as ->.
      { apply (elem_get _ _ _ Huniq) in Hget, Hin0. congruence. }
      destruct Hcase as [[Hn _]|(_ & -> & Hne)]; done.
    + apply (elem_get _ _ _ Huniq'). apply leave_rooms_elem. exists us.
      split; [done|]. right. by split.
Qed.

Lemma disconnect_cleans_up_named_user_witness :
  in_no_room (step (reach two_joined) (Disconnect "A")).1 "alice".
Proof.
  destruct (disconnect_cleans_up_named_user two_joined "A" "alice")
    as (_ & _ & _ & Hno & _); [by vm_compute | by vm_compute | done |].
  exact Hno.
Defined.

(** ** Transport rooms and who is in them *)

Lemma step_transport_origin st ev k rs :
  sids (step st ev).1 !! k = Some rs →
  (ev = Connect k ∧ rs = {[k]})
  ∨ (∃ rs0, sids st !! k = Some rs0
            ∧ ∀ x, x ∈ rs → x ∈ rs0 ∨ ∃ u, ev = JoinRoom k x u).
Proof.
  assert (Hsame : sids st !! k = Some rs →
            ∃ rs0, sids st !! k = Some rs0
                   ∧ ∀ x, x ∈ rs → x ∈ rs0 ∨ ∃ u, ev = JoinRoom k x u).
  { intros H. exists rs. split; [done|]. intros x Hx. by left. }
  destruct ev as [h|h r u|h p|h]; unfold step.
  - destruct (connected st h || negb (truthy h)); [by right; apply Hsame|].
    cbn [fst sids with_sids]. destruct (decide (h = k)) as [<-|Hk].
    + rewrite lookup_insert_eq. intros [= <-]. by left.
    + rewrite lookup_insert_ne by done. by right; apply Hsame.
  - destruct (connected st h); [|by right; apply Hsame].
    rewrite on_join_room_state. cbn [sids].
    destruct (decide (h = k)) as [<-|Hk].
    + rewrite lookup_alter_eq. destruct (sids st !! h) as [rs0|] eqn:E; [|done].
      intros [= <-]. right. exists rs0. split; [done|].
      intros x [->%elem_of_singleton|Hx]%elem_of_union; [right; by exists u | by left].
    + rewrite lookup_alter_ne by done. by right; apply Hsame.
  - destruct (connected st h); [rewrite on_signal_state|]; by right; apply Hsame.
  - destruct (connected st h); [|by right; apply Hsame].
    assert (Hs : sids (on_disconnect (with_sids st (delete h (sids st))) h).1
                 = delete h (sids st)).
    { by destruct (on_disconnect_cases (with_sids st (delete h (sids st))) h)
        as [(u & _ & _ & ->)|[_ ->]]. }
    rewrite Hs. intros [_ H]%lookup_delete_Some. by right; apply Hsame.
Qed.

Lemma run_transport_origin evs st k rs :
  sids (run st evs).1 !! k = Some rs →
  (Connect k ∈ evs ∧ ∀ x, x ∈ rs → x = k ∨ ∃ u, JoinRoom k x u ∈ evs)
  ∨ (∃ rs0, sids st !! k = Some rs0
            ∧ ∀ x, x ∈ rs → x ∈ rs0 ∨ ∃ u, JoinRoom k x u ∈ evs).
Proof.
  revert st. induction evs as [|ev evs IH]; intros st.
  - intros H. right. exists rs. split; [done|]. intros x Hx. by left.
  - rewrite run_cons_state. intros H.
    destruct (IH _ H) as [[Hc Hx]|(rs1 & H1 & Hx)].
    + left. split; [by right|]. intros x Hin.
      destruct (Hx x Hin) as [?|[u Hu]]; [by left|]. right. exists u. by right.
    + destruct (step_transport_origin _ _ _ _ H1) as [[-> ->]|(rs0 & H0 & Hx0)].
      * left. split; [left|]. intros x Hin.
        destruct (Hx x Hin) as [->%elem_of_singleton|[u Hu]]; [by left|].
        right. exists u. by right.
      * right. exists rs0. split; [done|]. intros x Hin.
        destruct (Hx x Hin) as [Hin1|[u Hu]]; [|right; exists u; by right].
        destruct (Hx0 x Hin1) as [?|[u ->]]; [by left|]. right. exists u. left.
Qed.

(** A connected socket stems from a connection of the sequence, and it is in
    its own room and in the rooms it joined, and in no other. *)
Lemma reach_transport_origin evs k rs :
  sids (reach evs) !! k = Some rs →
  Connect k ∈ evs ∧ ∀ x, x ∈ rs → x = k ∨ ∃ u, JoinRoom k x u ∈ evs.
Proof.
  intros H. destruct (run_transport_origin evs init k rs H) as [?|(rs0 & H0 & _)]; [done|].
  by vm_compute in H0.
Qed.

Lemma plain_rooms_spec evs k x u h :
  plain_rooms evs = true → JoinRoom k x u ∈ evs → Connect h ∈ evs → x ≠ h.
Proof.
  unfold plain_rooms. rewrite bool_decide_eq_true, Forall_forall.
  intros Hall Hj Hc ->. apply (Hall h).
  - apply list_elem_of_omap. by exists (JoinRoom k h u).
  - apply list_elem_of_omap. by exists (Connect h).
Qed.

(** When no room is named after a socket id, the only socket that can be in
    the transport room named after a connection is that connection. *)
Lemma own_room_is_private evs h k :
  plain_rooms evs = true → Connect h ∈ evs →
  k ∈ room_sockets (sids (reach evs)) h → k = h.
Proof.
  intros Hp Hh (rs & Hk & Hin)%room_sockets_elem.
  destruct (reach_transport_origin evs k rs Hk) as [_ Hx].
  destruct (Hx h Hin) as [->|[u Hu]]; [done|].
  by destruct (plain_rooms_spec evs k h u h Hp Hu Hh).
Qed.

Lemma guarded_snoc g st evs ev :
  guarded g st (evs ++ [ev]) = true →
  guarded g st evs = true ∧ g (run st evs).1 ev = true.
Proof.
  revert st. induction evs as [|e evs IH]; intros st; cbn [app guarded].
  - rewrite andb_true_r. intros H. split; [done | exact H].
  - intros [He Hrest]%andb_true_iff. destruct (IH _ Hrest) as [H1 H2].
    rewrite run_cons_state. by rewrite He, H1.
Qed.

(** When identities are neither shared nor changed and no room is named
    after a socket id, the user-left broadcast of a disconnect reaches the
    connection of every remaining member of every room the leaving user was
    in. *)
Lemma disconnect_notifies_members evs h u r us v :
  guarded one_named_identity init evs = true → plain_rooms evs = true →
  connected (reach evs) h = true → socketIdToUserIdMap (reach evs) !! h = Some u →
  (r, us) ∈ rooms (reach evs) → u ∈ us → v ∈ us → v ≠ u →
  ∃ k, userIdToSocketIdMap (step (reach evs) (Disconnect h)).1 !! v = Some k
       ∧ connected (step (reach evs) (Disconnect h)).1 k = true
       ∧ k ∈ recipients (sids (step (reach evs) (Disconnect h)).1) (SocketTo r h).
Proof.
  intros Hg Hp Hc Hr Hin Hu Hv Hne.
  destruct (reach_tidy evs Hg) as (Hag & Hrev & Hmem).
  destruct (Hrev h u Hr) as [_ Hname].
  destruct (Hmem r us v Hin Hv) as (k & rs & Hf & Hk & Hrs).
  assert (Hkh : k ≠ h) by (intros ->; apply Hag in Hf; congruence).
  assert (Hconn : Connect h ∈ evs).
  { apply connected_true in Hc as [rs0 H0]. by destruct (reach_transport_origin evs h rs0 H0). }
  rewrite step_disconnect_eq by done.
  rewrite (on_disconnect_found _ h u) by done.
  cbn [fst snd userIdToSocketIdMap sids with_sids rooms].
  exists k. split; [by rewrite lookup_delete_ne|]. split.
  - unfold connected. cbn [sids]. by rewrite lookup_delete_ne, Hk.
  - cbn [recipients]. apply elem_of_difference. split.
    + apply room_sockets_elem. exists rs. by rewrite lookup_delete_ne.
    + intros (rs' & [Hk' Hrs']%lookup_delete_Some & Hin')%room_sockets_elem.
      apply Hkh, (own_room_is_private evs h k Hp Hconn).
      apply room_sockets_elem. by exists rs'.
Qed.

(** Likewise the user-joined broadcast of a join reaches the connection of
    every other member of the room. *)
Lemma join_notifies_members evs h r u us v :
  guarded one_named_identity init (evs ++ [JoinRoom h r u]) = true →
  plain_rooms evs = true → connected (reach evs) h = true →
  (r, us) ∈ rooms (reach evs) → v ∈ us → v ≠ u →
  ∃ k, userIdToSocketIdMap (step (reach evs) (JoinRoom h r u)).1 !! v = Some k
       ∧ connected (step (reach evs) (JoinRoom h r u)).1 k = true
       ∧ k ∈ recipients (sids (step (reach evs) (JoinRoom h r u)).1) (SocketTo r h).
Proof.
  intros Hg Hp Hc Hin Hv Hne.
  destruct (guarded_snoc _ _ _ _ Hg) as [Hg1 Hg2].
  destruct (reach_tidy evs Hg1) as (Hag & Hrev & Hmem).
  apply one_named_identity_inv in Hg2 as [[_ Hkeep]%one_identity_join _].
  destruct (Hmem r us v Hin Hv) as (k & rs & Hf & Hk & Hrs).
  assert (Hkh : k ≠ h).
  { intros ->. apply Hag in Hf. fold (reach evs) in Hkeep. destruct Hkeep; congruence. }
  assert (Hconn : Connect h ∈ evs).
  { apply connected_true in Hc as [rs0 H0]. by destruct (reach_transport_origin evs h rs0 H0). }
  rewrite step_join_eq, on_join_room_state by done.
  cbn [userIdToSocketIdMap sids].
  exists k. split; [by rewrite lookup_insert_ne|]. split.
  - unfold connected. cbn [sids]. by rewrite lookup_alter_ne, Hk.
  - cbn [recipients]. apply elem_of_difference. split.
    + apply room_sockets_elem. exists rs. by rewrite lookup_alter_ne.
    + intros (rs' & Hk' & Hin')%room_sockets_elem.
      rewrite lookup_alter_ne in Hk' by done.
      apply Hkh, (own_room_is_private evs h k Hp Hconn).
      apply room_sockets_elem. by exists rs'.
Qed.

(** ** Who receives a relayed signal *)

(** A signal addressed to a bound user reaches a second connection when that
    connection joined a room named after the target's socket id, and reaches
    nobody when the target's socket is gone. *)
Lemma signal_reaches_others_or_nobody :
  (userIdToSocketIdMap (reach room_named_after_socket) !! targetUserId offer_to_bob = Some "B"
   ∧ (on_signal (reach room_named_after_socket) "A" offer_to_bob).2
     = [(IoTo "B", SignalMsg offer_to_bob)]
   ∧ elements (recipients (sids (reach room_named_after_socket)) (IoTo "B")) = ["C"; "B"])
  ∧ (userIdToSocketIdMap (reach rebound_then_gone) !! "alice" = Some "H1"
     ∧ connected (reach rebound_then_gone) "H1" = false
     ∧ elements (recipients (sids (reach rebound_then_gone)) (IoTo "H1")) = []).
Proof. by vm_compute. Qed.

(** C6 (amended).  In every state the server can reach, when the target of a
    signal payload is bound to connection [h], handling the signal emits
    exactly one message, that payload unmodified, addressed to the transport
    room named [h] ([io.to(h)]), and leaves the state as it was.  The message
    is delivered to [h] whenever [h] is connected, and to another connection
    only if that connection joined a room whose id is [h]; when no join-room
    named a room after a socket id and [h] is connected, it is delivered to
    [h] and to no other connection. *)
Theorem signal_forwarded_to_bound_target
    (evs : list event) (s : string) (p : payload) (h : string) :
  userIdToSocketIdMap (reach evs) !! targetUserId p = Some h →
  on_signal (reach evs) s p = (reach evs, [(IoTo h, SignalMsg p)])
  ∧ (connected (reach evs) s = true →
     step (reach evs) (Signal s p) = (reach evs, [(IoTo h, SignalMsg p)]))
  ∧ (connected (reach evs) h = true →
     h ∈ recipients (sids (reach evs)) (IoTo h))
  ∧ (∀ k, k ∈ recipients (sids (reach evs)) (IoTo h) →
       connected (reach evs) k = true ∧ (k = h ∨ ∃ u, JoinRoom k h u ∈ evs))
  ∧ (plain_rooms evs = true → connected (reach evs) h = true →
     recipients (sids (reach evs)) (IoTo h) = {[h]}).
Proof.
  intros Hh. destruct (reach_named_sockets evs) as (_ & Hf & Ho).
  assert (E : on_signal (reach evs) s p = (reach evs, [(IoTo h, SignalMsg p)])).
  { unfold on_signal. rewrite Hh.
    specialize (Hf _ _ Hh). apply truthy_true in Hf. by rewrite Hf. }
  assert (Hown : connected (reach evs) h = true →
            h ∈ recipients (sids (reach evs)) (IoTo h)).
  { intros [rs Hrs]%connected_true. apply room_sockets_elem.
    exists rs. split; [done|]. by eapply Ho. }
  split; [done|]. split; [|split; [done|split]].
  - intros Hs. unfold step. by rewrite Hs.
  - intros k (rs & Hk & Hin)%room_sockets_elem. split.
    + apply connected_true. by eexists.
    + destruct (reach_transport_origin evs k rs Hk) as [_ Hx].
      destruct (Hx h Hin) as [->|?]; [by left | by right].
  - intros Hp Hc. apply set_eq. intros k. rewrite elem_of_singleton. split.
    + apply own_room_is_private; [done|].
      apply connected_true in Hc as [rs0 H0].
      by destruct (reach_transport_origin evs h rs0 H0).
    + intros ->. by apply Hown.
Qed.

Lemma signal_forwarded_to_bound_target_witness :
  on_signal (reach two_joined) "A" offer_to_bob
  = (reach two_joined, [(IoTo "B", SignalMsg offer_to_bob)]).
Proof.
  refine (proj1 (signal_forwarded_to_bound_target two_joined "A" offer_to_bob "B" _)).
  by vm_compute.
Defined.

(** ** What a join emits, and to whom *)

(** A member of the room whose user id is bound to a connected socket gets
    no user-joined when that socket is not one that joined the room: here
    ["alice"] is a member of ["r1"], bound to the connected K2 and listed in
    existing-users, and the broadcast has no recipient. *)
Lemma member_connection_misses_user_joined :
  RoomMap.get "r1" (rooms (reach member_on_other_connection)) = Some ["alice"]
  ∧ userIdToSocketIdMap (reach member_on_other_connection) !! "alice" = Some "K2"
  ∧ connected (reach member_on_other_connection) "K2" = true
  ∧ (step (reach member_on_other_connection) (JoinRoom "K3" "r1" "carol")).2
    = [ (SocketEmit "K3", ExistingUsers ["alice"]);
        (SocketTo "r1" "K3", UserJoined "carol") ]
  ∧ elements (recipients
                (sids (step (reach member_on_other_connection)
                            (JoinRoom "K3" "r1" "carol")).1)
                (SocketTo "r1" "K3")) = [].
Proof. by vm_compute. Qed.

(** C8 (amended).  In every state the server can reach, a join-room(r, u) on
    a connected socket [s] emits two messages, in this order.  The first
    goes to [s] alone and is existing-users with the members of [r] other
    than [u], in the order of the member set; [u] is never in that list.
    The second is user-joined {u}, broadcast to the sockets in the transport
    room [r] that are not in the transport room named after [s]; [s] is
    never among them, although by then [u] is recorded as a member of [r]
    and [s] is in the transport room [r].  When every join-room carried a
    non-empty user id, no identity was shared by two connections or changed
    by one, and no room was named after a socket id, the broadcast reaches
    the connected socket of every other member of [r]. *)
Theorem join_room_emissions (evs : list event) (s r u : string) :
  connected (reach evs) s = true →
  ∃ members,
    RoomMap.get r (rooms (step (reach evs) (JoinRoom s r u)).1) = Some members
    ∧ u ∈ members
    ∧ (step (reach evs) (JoinRoom s r u)).2 =
        [ (SocketEmit s, ExistingUsers (filter (λ id, id ≠ u) members));
          (SocketTo r s, UserJoined u) ]
    ∧ (∀ v, v ∈ filter (λ id, id ≠ u) members ↔ v ∈ members ∧ v ≠ u)
    ∧ (u ∉ filter (λ id, id ≠ u) members)
    ∧ filter (λ id, id ≠ u) members
      = filter (λ id, id ≠ u) (default [] (RoomMap.get r (rooms (reach evs))))
    ∧ recipients (sids (step (reach evs) (JoinRoom s r u)).1) (SocketEmit s) = {[s]}
    ∧ s ∈ room_sockets (sids (step (reach evs) (JoinRoom s r u)).1) r
    ∧ (s ∉ recipients (sids (step (reach evs) (JoinRoom s r u)).1) (SocketTo r s))
    ∧ (∀ h, h ∈ recipients (sids (step (reach evs) (JoinRoom s r u)).1) (SocketTo r s)
            ↔ h ∈ room_sockets (sids (step (reach evs) (JoinRoom s r u)).1) r
              ∧ h ∉ room_sockets (sids (step (reach evs) (JoinRoom s r u)).1) s)
    ∧ (guarded one_named_identity init (evs ++ [JoinRoom s r u]) = true →
       plain_rooms evs = true →
       ∀ v, v ∈ members → v ≠ u →
         ∃ k, userIdToSocketIdMap (step (reach evs) (JoinRoom s r u)).1 !! v = Some k
              ∧ connected (step (reach evs) (JoinRoom s r u)).1 k = true
              ∧ k ∈ recipients (sids (step (reach evs) (JoinRoom s r u)).1) (SocketTo r s)).
Proof.
  intros Hs. destruct (reach_named_sockets evs) as (_ & _ & Ho).
  pose proof (join_notifies_members evs s r u) as Hdeliver.
  assert (E : step (reach evs) (JoinRoom s r u) = on_join_room (reach evs) s r u)
    by (by apply step_join_eq).
  rewrite E in *. rewrite on_join_room_state in *. cbn [rooms sids userIdToSocketIdMap] in *.
  exists (StrSet.add u (default [] (RoomMap.get r (rooms (reach evs))))).
  split; [apply get_set_eq|].
  split; [apply elem_add; by left|].
  split; [by rewrite on_join_room_out, filter_add|].
  split; [intros v; rewrite list_elem_of_filter; tauto|].
  split; [rewrite list_elem_of_filter; tauto|].
  split; [apply filter_add|].
  split; [done|].
  pose proof Hs as [rs Hrs]%connected_true.
  assert (Hr : s ∈ room_sockets (alter (λ rs, {[r]} ∪ rs) s (sids (reach evs))) r).
  { apply room_sockets_elem. exists ({[r]} ∪ rs).
    rewrite lookup_alter_eq, Hrs. split; [done|apply in_joined]. }
  assert (Hself : s ∈ room_sockets (alter (λ rs, {[r]} ∪ rs) s (sids (reach evs))) s).
  { apply room_sockets_elem. exists ({[r]} ∪ rs).
    rewrite lookup_alter_eq, Hrs. split; [done|]. apply in_joined_keep. by eapply Ho. }
  split; [done|].
  split; [cbn [recipients]; rewrite elem_of_difference; tauto|].
  split; [intros h; cbn [recipients]; apply elem_of_difference|].
  intros Hg Hp v Hv Hne.
  apply elem_add in Hv as [->|Hv]; [done|].
  destruct (RoomMap.get r (rooms (reach evs))) as [us0|] eqn:Hget; cbn [default] in Hv.
  - apply get_Some_elem in Hget. by eapply Hdeliver.
  - by apply not_elem_of_nil in Hv.
Qed.

Lemma join_room_emissions_witness :
  ∃ members,
    RoomMap.get "r1" (rooms (step (reach [Connect "A"; Connect "B"; JoinRoom "A" "r1" "alice"])
                                  (JoinRoom "B" "r1" "bob")).1) = Some members
    ∧ (step (reach [Connect "A"; Connect "B"; JoinRoom "A" "r1" "alice"])
            (JoinRoom "B" "r1" "bob")).2 =
        [ (SocketEmit "B", ExistingUsers (filter (λ id, id ≠ "bob") members));
          (SocketTo "r1" "B", UserJoined "bob") ].
Proof.
  destruct (join_room_emissions
              [Connect "A"; Connect "B"; JoinRoom "A" "r1" "alice"]
              "B" "r1" "bob") as (members & H1 & _ & H2 & _); [by vm_compute|].
  by exists members.
Defined.

(** ** Delivery to the members' connections *)

(** X18.  When every join-room of the sequence carried a non-empty user id,
    no identity was shared by two connections or changed by one, and no
    room was named after a socket id, the user-left broadcast of a
    disconnect reaches the connected socket of every remaining member of
    every room the leaving user was in. *)
Theorem user_left_reaches_remaining_members
    (evs : list event) (h u r : string) (us : list string) (v : string) :
  guarded one_named_identity init evs = true → plain_rooms evs = true →
  connected (reach evs) h = true → socketIdToUserIdMap (reach evs) !! h = Some u →
  (r, us) ∈ rooms (reach evs) → u ∈ us → v ∈ us → v ≠ u →
  ∃ k, userIdToSocketIdMap (step (reach evs) (Disconnect h)).1 !! v = Some k
       ∧ connected (step (reach evs) (Disconnect h)).1 k = true
       ∧ (SocketTo r h, UserLeft u) ∈ (step (reach evs) (Disconnect h)).2
       ∧ k ∈ recipients (sids (step (reach evs) (Disconnect h)).1) (SocketTo r h).
Proof.
  intros Hg Hp Hc Hr Hin Hu Hv Hne.
  destruct (disconnect_notifies_members evs h u r us v Hg Hp Hc Hr Hin Hu Hv Hne)
    as (k & Hk & Hck & Hrec).
  exists k. split; [done|]. split; [done|]. split; [|done].
  destruct (reach_tidy evs Hg) as (_ & Hrev & _). destruct (Hrev h u Hr) as [_ Hname].
  destruct (disconnect_cleanup (reach evs) h u Hc Hr Hname) as (_ & _ & _ & Hout & _).
  by eapply Hout.
Qed.

Lemma user_left_reaches_remaining_members_witness :
  ∃ k, userIdToSocketIdMap (step (reach two_joined) (Disconnect "A")).1 !! "bob" = Some k
       ∧ connected (step (reach two_joined) (Disconnect "A")).1 k = true
       ∧ (SocketTo "r1" "A", UserLeft "alice") ∈ (step (reach two_joined) (Disconnect "A")).2
       ∧ k ∈ recipients (sids (step (reach two_joined) (Disconnect "A")).1) (SocketTo "r1" "A").
Proof.
  apply (user_left_reaches_remaining_members two_joined "A" "alice" "r1" ["alice"; "bob"] "bob");
    try done; try (by vm_compute).
  - vm_compute. left.
  - left.
  - right. left.
Defined.

(** X19.  Under the same conditions on the sequence and on the join itself,
    the user-joined broadcast of a join-room reaches the connected socket of
    every other member of the room. *)
Theorem user_joined_reaches_other_members
    (evs : list event) (h r u : string) (us : list string) (v : string) :
  guarded one_named_identity init (evs ++ [JoinRoom h r u]) = true →
  plain_rooms evs = true → connected (reach evs) h = true →
  (r, us) ∈ rooms (reach evs) → v ∈ us → v ≠ u →
  ∃ k, userIdToSocketIdMap (step (reach evs) (JoinRoom h r u)).1 !! v = Some k
       ∧ connected (step (reach evs) (JoinRoom h r u)).1 k = true
       ∧ (SocketTo r h, UserJoined u) ∈ (step (reach evs) (JoinRoom h r u)).2
       ∧ k ∈ recipients (sids (step (reach evs) (JoinRoom h r u)).1) (SocketTo r h).
Proof.
  intros Hg Hp Hc Hin Hv Hne.
  destruct (join_notifies_members evs h r u us v Hg Hp Hc Hin Hv Hne)
    as (k & Hk & Hck & Hrec).
  exists k. split; [done|]. split; [done|]. split; [|done].
  rewrite step_join_eq, on_join_room_out by done. right. left.
Qed.

Lemma user_joined_reaches_other_members_witness :
  ∃ k, userIdToSocketIdMap
         (step (reach [Connect "A"; Connect "B"; JoinRoom "A" "r1" "alice"])
               (JoinRoom "B" "r1" "bob")).1 !! "alice" = Some k
       ∧ connected (step (reach [Connect "A"; Connect "B"; JoinRoom "A" "r1" "alice"])
                         (JoinRoom "B" "r1" "bob")).1 k = true
       ∧ (SocketTo "r1" "B", UserJoined "bob")
         ∈ (step (reach [Connect "A"; Connect "B"; JoinRoom "A" "r1" "alice"])
                 (JoinRoom "B" "r1" "bob")).2
       ∧ k ∈ recipients
               (sids (step (reach [Connect "A"; Connect "B"; JoinRoom "A" "r1" "alice"])
                           (JoinRoom "B" "r1" "bob")).1) (SocketTo "r1" "B").
Proof.
  apply (user_joined_reaches_other_members
           [Connect "A"; Connect "B"; JoinRoom "A" "r1" "alice"] "B" "r1" "bob"
           ["alice"] "alice"); try done; try (by vm_compute).
  - vm_compute. left.
  - left.
Defined.
